(** * Pixlet: the grid editing and history engine of [src/App.vue]

    A shallow embedding of the script part of the single-file component:
    the colour grid, the brush stamp, the recursive flood fill, the
    Bresenham stroke interpolator, the snapshot history with its cursor,
    the recency list of colours, and the pointer handlers that tie
    them into gestures.

    Modelling conventions.
    - A colour is the string the source stores (["#FFFFFF"], ...).  The
      grid [string[][]] is a list of rows; cells are read with stdpp's
      list lookup and written with [alter]/insert.
    - Row and column numbers, the brush size and the history cursor are
      JS numbers that only ever hold integers; they are [Z] here
      ([historyIndex] starts at [-1], the flood fill probes row [-1]).
    - The Vue refs form one record [State]; every function of the source
      that mutates refs is a function [State -> State].
    - The canvas is write-only for the script (nothing is ever read back
      from it), so [renderCanvas], [renderSinglePixel], [drawGridLines]
      and [renderHoverPreview] leave [State] unchanged and are omitted.
    - [saveState], [undo] and [redo] copy the grid row by row
      ([map(row => [...row])]); with immutable lists the copy is the
      value itself and no entry of the history aliases the live grid. *)

From stdpp Require Import base tactics option list list_numbers strings.
From Stdlib Require Import ZArith Lia.

Local Open Scope Z_scope.

(** ** Data model *)

(** [currentTool]: ['pencil' | 'eraser' | 'fill' | 'eyedropper']. *)
Inductive Tool : Set := pencil | eraser | fill | eyedropper.

#[global] Instance Tool_eq_dec : EqDecision Tool.
Proof. solve_decision. Defined.

(** The refs of the component that the engine reads or writes. *)
Record State : Type := mkState {
  gridWidth : Z;
  gridHeight : Z;
  grid : list (list string);
  currentColor : string;
  currentTool : Tool;
  isDrawing : bool;
  lastDrawnPos : option (Z * Z);
  brushSize : Z;
  hoveredCell : option (Z * Z);
  history : list (list (list string));
  historyIndex : Z;
  colorHistory : list string
}.

Definition MAX_HISTORY : Z := 50.
Definition WHITE : string := "#FFFFFF".
Definition BLACK : string := "#000000".

(** Assignments to single refs. *)
Definition set_gridWidth (v : Z) (st : State) : State :=
  mkState v (gridHeight st) (grid st) (currentColor st) (currentTool st)
    (isDrawing st) (lastDrawnPos st) (brushSize st) (hoveredCell st)
    (history st) (historyIndex st) (colorHistory st).
Definition set_gridHeight (v : Z) (st : State) : State :=
  mkState (gridWidth st) v (grid st) (currentColor st) (currentTool st)
    (isDrawing st) (lastDrawnPos st) (brushSize st) (hoveredCell st)
    (history st) (historyIndex st) (colorHistory st).
Definition set_grid (v : list (list string)) (st : State) : State :=
  mkState (gridWidth st) (gridHeight st) v (currentColor st) (currentTool st)
    (isDrawing st) (lastDrawnPos st) (brushSize st) (hoveredCell st)
    (history st) (historyIndex st) (colorHistory st).
Definition set_currentColor (v : string) (st : State) : State :=
  mkState (gridWidth st) (gridHeight st) (grid st) v (currentTool st)
    (isDrawing st) (lastDrawnPos st) (brushSize st) (hoveredCell st)
    (history st) (historyIndex st) (colorHistory st).
Definition set_currentTool (v : Tool) (st : State) : State :=
  mkState (gridWidth st) (gridHeight st) (grid st) (currentColor st) v
    (isDrawing st) (lastDrawnPos st) (brushSize st) (hoveredCell st)
    (history st) (historyIndex st) (colorHistory st).
Definition set_isDrawing (v : bool) (st : State) : State :=
  mkState (gridWidth st) (gridHeight st) (grid st) (currentColor st)
    (currentTool st) v (lastDrawnPos st) (brushSize st) (hoveredCell st)
    (history st) (historyIndex st) (colorHistory st).
Definition set_lastDrawnPos (v : option (Z * Z)) (st : State) : State :=
  mkState (gridWidth st) (gridHeight st) (grid st) (currentColor st)
    (currentTool st) (isDrawing st) v (brushSize st) (hoveredCell st)
    (history st) (historyIndex st) (colorHistory st).
Definition set_brushSize (v : Z) (st : State) : State :=
  mkState (gridWidth st) (gridHeight st) (grid st) (currentColor st)
    (currentTool st) (isDrawing st) (lastDrawnPos st) v (hoveredCell st)
    (history st) (historyIndex st) (colorHistory st).
Definition set_hoveredCell (v : option (Z * Z)) (st : State) : State :=
  mkState (gridWidth st) (gridHeight st) (grid st) (currentColor st)
    (currentTool st) (isDrawing st) (lastDrawnPos st) (brushSize st) v
    (history st) (historyIndex st) (colorHistory st).
Definition set_history (v : list (list (list string))) (st : State) : State :=
  mkState (gridWidth st) (gridHeight st) (grid st) (currentColor st)
    (currentTool st) (isDrawing st) (lastDrawnPos st) (brushSize st)
    (hoveredCell st) v (historyIndex st) (colorHistory st).
Definition set_historyIndex (v : Z) (st : State) : State :=
  mkState (gridWidth st) (gridHeight st) (grid st) (currentColor st)
    (currentTool st) (isDrawing st) (lastDrawnPos st) (brushSize st)
    (hoveredCell st) (history st) v (colorHistory st).
Definition set_colorHistory (v : list string) (st : State) : State :=
  mkState (gridWidth st) (gridHeight st) (grid st) (currentColor st)
    (currentTool st) (isDrawing st) (lastDrawnPos st) (brushSize st)
    (hoveredCell st) (history st) (historyIndex st) v.

(** ** Grid cells *)

(** [grid.value[row][col]] as a read.  A negative or too large index
    finds nothing ([undefined] in the source). *)
Definition get_cell (g : list (list string)) (row col : Z) : option string :=
  if (row <? 0) || (col <? 0) then None
  else g !! Z.to_nat row ≫= λ r, r !! Z.to_nat col.

(** [grid.value[row][col] = color].  Every write of the source sits
    behind a bounds test against [gridHeight]/[gridWidth]; on a grid of
    that shape the cell exists.  Outside the lists the model writes
    nothing. *)
Definition set_cell (g : list (list string)) (row col : Z) (color : string)
  : list (list string) :=
  if (row <? 0) || (col <? 0) then g
  else alter (λ r, <[Z.to_nat col := color]> r) (Z.to_nat row) g.

(** The test [newRow >= 0 && newRow < gridHeight && newCol >= 0 &&
    newCol < gridWidth] of the brush loops; its negation is the guard
    [row < 0 || row >= gridHeight || col < 0 || col >= gridWidth]. *)
Definition in_bounds (w h row col : Z) : bool :=
  (0 <=? row) && (row <? h) && (0 <=? col) && (col <? w).

(** [Array(h).fill(null).map(() => Array(w).fill(color))]. *)
Definition create (w h : Z) (color : string) : list (list string) :=
  replicate (Z.to_nat h) (replicate (Z.to_nat w) color).

(** ** History *)

(** [arr.slice(0, e)] of JS: a negative [e] counts from the end. *)
Definition js_slice0 {A} (e : Z) (l : list A) : list A :=
  if e <? 0 then take (length l - Z.to_nat (- e))%nat l
  else take (Z.to_nat e) l.

Definition saveState (st : State) : State :=
  let h1 := js_slice0 (historyIndex st + 1) (history st) in
  let h2 := h1 ++ [grid st] in
  if MAX_HISTORY <? Z.of_nat (length h2)
  then set_history (tail h2) st
  else set_historyIndex (historyIndex st + 1) (set_history h2 st).

(** [history.value[historyIndex.value]] is read after the cursor moved;
    were the entry missing the source would raise there, with the
    cursor already updated and the grid untouched. *)
Definition undo (st : State) : State :=
  if 0 <? historyIndex st then
    let st1 := set_historyIndex (historyIndex st - 1) st in
    match history st1 !! Z.to_nat (historyIndex st1) with
    | Some g => set_grid g st1
    | None => st1
    end
  else st.

Definition redo (st : State) : State :=
  if historyIndex st <? Z.of_nat (length (history st)) - 1 then
    let st1 := set_historyIndex (historyIndex st + 1) st in
    match history st1 !! Z.to_nat (historyIndex st1) with
    | Some g => set_grid g st1
    | None => st1
    end
  else st.

Definition initializeGrid (st : State) : State :=
  let st1 := set_grid (create (gridWidth st) (gridHeight st) WHITE) st in
  saveState (set_historyIndex (-1) (set_history [] st1)).

(** ** Colour history *)

Definition addToColorHistory (color : string) (st : State) : State :=
  let filtered := filter (λ c, c ≠ color) (colorHistory st) in
  set_colorHistory (js_slice0 20 (color :: filtered)) st.

(** ** Brush stamp

    The two nested loops shared by the pencil and the eraser branch of
    [drawPixel]: [offset = Math.floor(brushSize / 2)], both loop
    variables run over [-offset, brushSize - offset), and a cell is
    written only when it passes the bounds test. *)

Definition brush_offsets (b : Z) : list Z := seqZ (- (b / 2)) b.

Definition stamp_cell (w h row col : Z) (color : string)
    (r c : Z) (g : list (list string)) : list (list string) :=
  let newRow := row + r in
  let newCol := col + c in
  if in_bounds w h newRow newCol then set_cell g newRow newCol color else g.

Definition stamp (w h b row col : Z) (color : string) (g : list (list string))
  : list (list string) :=
  foldl (λ g r, foldl (λ g c, stamp_cell w h row col color r c g)
                      g (brush_offsets b))
        g (brush_offsets b).

(** The cells one stamp writes, in loop order. *)
Definition stamp_cells (w h b row col : Z) : list (Z * Z) :=
  r ← brush_offsets b;
  c ← brush_offsets b;
  if in_bounds w h (row + r) (col + c) then [(row + r, col + c)] else [].

(** ** Flood fill

    The source recurses without a bound.  [floodFill_rec] carries the
    recursion depth still allowed and answers [None] when it is used up;
    the four recursive calls thread the grid in the order of the
    source (up, down, left, right). *)

Fixpoint floodFill_rec (depth : nat) (w h : Z) (g : list (list string))
    (row col : Z) (targetColor replacementColor : string)
  : option (list (list string)) :=
  match depth with
  | O => None
  | S d =>
      if bool_decide (targetColor = replacementColor) then Some g
      else if negb (in_bounds w h row col) then Some g
      else if bool_decide (get_cell g row col ≠ Some targetColor) then Some g
      else
        let g0 := set_cell g row col replacementColor in
        g1 ← floodFill_rec d w h g0 (row - 1) col targetColor replacementColor;
        g2 ← floodFill_rec d w h g1 (row + 1) col targetColor replacementColor;
        g3 ← floodFill_rec d w h g2 row (col - 1) targetColor replacementColor;
        floodFill_rec d w h g3 row (col + 1) targetColor replacementColor
  end.

(** Number of cells of [g] that hold [color]. *)
Definition count_color (color : string) (g : list (list string)) : nat :=
  sum_list (map (λ r, length (filter (λ c, c = color) r)) g).

(** [floodFill]: the recursion run with one more level than there are
    target-coloured cells, which is always enough ([floodFill_total]). *)
Definition floodFill (row col : Z) (targetColor replacementColor : string)
    (st : State) : State :=
  match floodFill_rec (S (count_color targetColor (grid st)))
          (gridWidth st) (gridHeight st) (grid st) row col
          targetColor replacementColor with
  | Some g => set_grid g st
  | None => st
  end.

(** ** drawPixel *)

(** In the fill and eyedropper branches [grid.value[row][col]] is read
    after the bounds guard; on a grid of the declared shape the cell
    exists, and the model leaves the state alone otherwise. *)
Definition drawPixel (row col : Z) (st : State) : State :=
  if negb (in_bounds (gridWidth st) (gridHeight st) row col) then st
  else
    match currentTool st with
    | pencil =>
        let color := currentColor st in
        let st1 := addToColorHistory color st in
        set_grid (stamp (gridWidth st1) (gridHeight st1) (brushSize st1)
                        row col color (grid st1)) st1
    | eraser =>
        set_grid (stamp (gridWidth st) (gridHeight st) (brushSize st)
                        row col WHITE (grid st)) st
    | fill =>
        match get_cell (grid st) row col with
        | Some target =>
            let st1 := floodFill row col target (currentColor st) st in
            let st2 := addToColorHistory (currentColor st1) st1 in
            saveState st2
        | None => st
        end
    | eyedropper =>
        match get_cell (grid st) row col with
        | Some c => set_currentTool pencil (set_currentColor c st)
        | None => st
        end
    end.

(** ** Bresenham stroke interpolation

    The [while (true)] loop of [drawLine], with the number of iterations
    still allowed as [fuel] ([None] when it is used up).  The loop is
    written once over the action performed on each visited cell, so the
    same code yields the state after the stroke and the visited cells. *)

Fixpoint bresenham_loop {S : Type} (visit : Z → Z → S → S) (fuel : nat)
    (dx dy sx sy row1 col1 err currentRow currentCol : Z) (s : S) : option S :=
  match fuel with
  | O => None
  | S n =>
      let s1 := visit currentRow currentCol s in
      if (currentRow =? row1) && (currentCol =? col1) then Some s1
      else
        let e2 := 2 * err in
        let err1 := if - dy <? e2 then err - dy else err in
        let col' := if - dy <? e2 then currentCol + sx else currentCol in
        let err2 := if e2 <? dx then err1 + dx else err1 in
        let row' := if e2 <? dx then currentRow + sy else currentRow in
        bresenham_loop visit n dx dy sx sy row1 col1 err2 row' col' s1
  end.

Definition line_fuel (row0 col0 row1 col1 : Z) : nat :=
  S (Z.to_nat (Z.max (Z.abs (col1 - col0)) (Z.abs (row1 - row0)))).

Definition bresenham {S : Type} (visit : Z → Z → S → S) (fuel : nat)
    (row0 col0 row1 col1 : Z) (s : S) : option S :=
  let dx := Z.abs (col1 - col0) in
  let dy := Z.abs (row1 - row0) in
  let sx := if col0 <? col1 then 1 else -1 in
  let sy := if row0 <? row1 then 1 else -1 in
  bresenham_loop visit fuel dx dy sx sy row1 col1 (dx - dy) row0 col0 s.

(** The cells [drawLine] passes to [drawPixel], in order. *)
Definition line_cells (fuel : nat) (row0 col0 row1 col1 : Z)
  : option (list (Z * Z)) :=
  bresenham (λ r c acc, acc ++ [(r, c)]) fuel row0 col0 row1 col1 [].

(** [drawLine]: the loop run for [line_fuel] iterations, one per cell
    of the line, which always reach the end cell ([bresenham_run]). *)
Definition drawLine (row0 col0 row1 col1 : Z) (st : State) : State :=
  match bresenham drawPixel (line_fuel row0 col0 row1 col1)
          row0 col0 row1 col1 st with
  | Some st' => st'
  | None => st
  end.

(** ** Pointer handlers

    [getCanvasCoordinates] maps the pointer to a cell with floating
    point arithmetic on the canvas rectangle; the handlers below take
    its result ([None] when there is no canvas). *)

Definition startDrawing (row col : Z) (st : State) : State :=
  drawPixel row col
    (set_lastDrawnPos (Some (row, col))
       (set_hoveredCell None (set_isDrawing true st))).

Definition stopDrawing (st : State) : State :=
  let st1 := if isDrawing st then saveState st else st in
  set_lastDrawnPos None (set_isDrawing false st1).

Definition onCanvasMouseDown (coords : option (Z * Z)) (st : State) : State :=
  match coords with
  | Some (row, col) => startDrawing row col st
  | None => st
  end.

Definition is_brush_tool (t : Tool) : bool :=
  bool_decide (t = pencil) || bool_decide (t = eraser).

Definition onCanvasMouseMove (buttons : Z) (coords : option (Z * Z))
    (st : State) : State :=
  if buttons =? 1 then
    let st1 :=
      if negb (isDrawing st) && is_brush_tool (currentTool st)
      then set_isDrawing true st else st in
    match coords with
    | Some (row, col) =>
        if isDrawing st1 && is_brush_tool (currentTool st1) then
          let st2 :=
            match lastDrawnPos st1 with
            | Some (lrow, lcol) =>
                if negb (lrow =? row) || negb (lcol =? col)
                then drawLine lrow lcol row col st1
                else st1
            | None => drawPixel row col st1
            end in
          set_lastDrawnPos (Some (row, col)) st2
        else st1
    | None => st1
    end
  else
    match coords with
    | Some c => set_hoveredCell (Some c) st
    | None => st
    end.

(** The canvas listener; the document listener for [mouseup] is
    [stopDrawing] itself. *)
Definition onCanvasMouseUp (st : State) : State := stopDrawing st.

Definition onCanvasMouseLeave (st : State) : State :=
  match hoveredCell st with
  | Some _ => set_hoveredCell None st
  | None => st
  end.

(** The state the component is mounted with, before [initializeGrid]. *)
Definition mount_state : State :=
  mkState 32 32 [] BLACK pencil false None 1 None [] (-1) [BLACK; WHITE].

Definition initial_state : State := initializeGrid mount_state.

(** ** Grid management *)

(** The confirmed branch of [clearGrid]. *)
Definition clearGrid (st : State) : State :=
  let g :=
    foldl (λ g row, foldl (λ g col, set_cell g row col WHITE)
                          g (seqZ 0 (gridWidth st)))
          (grid st) (seqZ 0 (gridHeight st)) in
  saveState (set_grid g st).

(** The callback of [resizeGrid] on the parsed input ([None] for an
    empty value or [NaN]): out-of-range sizes only raise an alert. *)
Definition resizeGrid (value : option Z) (st : State) : State :=
  match value with
  | None => st
  | Some newSize =>
      if (newSize <? 8) || (64 <? newSize) then st
      else initializeGrid (set_gridHeight newSize (set_gridWidth newSize st))
  end.

(** ** The editor as a transition system *)

Inductive Event : Type :=
  | CanvasMouseDown (coords : option (Z * Z))
  | CanvasMouseMove (buttons : Z) (coords : option (Z * Z))
  | CanvasMouseUp
  | DocumentMouseUp
  | CanvasMouseLeave
  | SelectTool (t : Tool)
  | SelectColor (c : string)
  | SelectBrush (b : Z)
  | KeyUndo
  | KeyRedo
  | ClearConfirmed
  | ResizeSubmitted (value : option Z).

(** A [mouseup] on the canvas runs the canvas listener and then, by
    bubbling, the document listener. *)
Definition handle (ev : Event) (st : State) : State :=
  match ev with
  | CanvasMouseDown coords => onCanvasMouseDown coords st
  | CanvasMouseMove buttons coords => onCanvasMouseMove buttons coords st
  | CanvasMouseUp => stopDrawing (onCanvasMouseUp st)
  | DocumentMouseUp => stopDrawing st
  | CanvasMouseLeave => onCanvasMouseLeave st
  | SelectTool t => set_currentTool t st
  | SelectColor c => set_currentColor c st
  | SelectBrush b => set_brushSize b st
  | KeyUndo => undo st
  | KeyRedo => redo st
  | ClearConfirmed => clearGrid st
  | ResizeSubmitted value => resizeGrid value st
  end.

Definition run (evs : list Event) (st : State) : State :=
  foldl (λ st ev, handle ev st) st evs.

Inductive reachable : State → Prop :=
  | reachable_init : reachable initial_state
  | reachable_step st ev : reachable st → reachable (handle ev st).

(** ** Predicates used in the statements *)

(** A grid of [h] rows of [w] cells each. *)
Definition wf_grid (w h : Z) (g : list (list string)) : Prop :=
  length g = Z.to_nat h ∧ Forall (λ r, length r = Z.to_nat w) g.

(** The cursor points into the stack. *)
Definition cursor_ok (st : State) : Prop :=
  0 ≤ historyIndex st < Z.of_nat (length (history st)).

Record state_inv (st : State) : Prop := {
  inv_dims : 0 ≤ gridWidth st ∧ 0 ≤ gridHeight st;
  inv_grid : wf_grid (gridWidth st) (gridHeight st) (grid st);
  inv_entries : Forall (wf_grid (gridWidth st) (gridHeight st)) (history st);
  inv_capacity : Z.of_nat (length (history st)) ≤ MAX_HISTORY;
  inv_cursor : cursor_ok st;
  inv_colors_nodup : NoDup (colorHistory st);
  inv_colors_bound : (length (colorHistory st) ≤ 20)%nat
}.

(** One recorded edit: the grid becomes [g] and the state is saved. *)
Definition record (g : list (list string)) (st : State) : State :=
  saveState (set_grid g st).

Definition record_all (gs : list (list (list string))) (st : State) : State :=
  foldl (λ st g, record g st) st gs.

(** The state with the cursor on entry [i] and that entry restored. *)
Definition at_entry (i : nat) (g : list (list string)) (st : State) : State :=
  set_grid g (set_historyIndex (Z.of_nat i) st).

(** Two cells at most one row and at most one column apart. *)
Definition one_step (p q : Z * Z) : Prop :=
  Z.abs (q.1 - p.1) ≤ 1 ∧ Z.abs (q.2 - p.2) ≤ 1.

(** Every pair of neighbours in the sequence satisfies [R]. *)
Fixpoint chain (R : Z * Z → Z * Z → Prop) (l : list (Z * Z)) : Prop :=
  match l with
  | p :: (q :: _) as l' => R p q ∧ chain R l'
  | _ => True
  end.

(** The square of offsets of a brush of side [b]. *)
Definition in_brush (b row col r c : Z) : Prop :=
  - (b / 2) ≤ r - row < b - b / 2 ∧ - (b / 2) ≤ c - col < b - b / 2.

(** The four neighbours the flood fill recurses into. *)
Definition adjacent4 (p q : Z * Z) : Prop :=
  (q.1 = p.1 - 1 ∧ q.2 = p.2) ∨ (q.1 = p.1 + 1 ∧ q.2 = p.2)
  ∨ (q.1 = p.1 ∧ q.2 = p.2 - 1) ∨ (q.1 = p.1 ∧ q.2 = p.2 + 1).

(** [g'] differs from [g] only in cells repainted from [t] to [r]. *)
Definition repainted (t r : string) (g g' : list (list string)) : Prop :=
  ∀ row col,
    get_cell g' row col = get_cell g row col
    ∨ (get_cell g row col = Some t ∧ get_cell g' row col = Some r).

(** The invariant of the loop of [drawLine], [n] iterations before the
    last one: [i] and [j] count the column and row steps taken, and the
    deviation [i * dy - j * dx] from the ideal line stays within the
    band that forces a step along the major axis in every iteration. *)
Definition line_inv (dx dy : Z) (n : nat) (i j : Z) : Prop :=
  (dx = 0 ∧ dy = 0 ∧ i = 0 ∧ j = 0 ∧ n = 0%nat)
  ∨ (dy ≤ dx ∧ 0 < dx ∧ i = dx - Z.of_nat n
     ∧ - dx < 2 * (i * dy - j * dx) < 2 * dx - dy)
  ∨ (dx < dy ∧ j = dy - Z.of_nat n
     ∧ dx - 2 * dy < 2 * (i * dy - j * dx) < dy).

(** The action [visit] applied along a sequence of cells. *)
Definition visit_all {S : Type} (visit : Z → Z → S → S)
    (cells : list (Z * Z)) (s : S) : S :=
  foldl (λ s p, visit p.1 p.2 s) s cells.

(** [color] written into every cell of the sequence. *)
Definition paint (color : string) (cells : list (Z * Z))
    (g : list (list string)) : list (list string) :=
  visit_all (λ row col g, set_cell g row col color) cells g.

(** [st'] has the history, cursor, tool and drawing flag of [st]. *)
Definition same_session (st st' : State) : Prop :=
  history st' = history st ∧ historyIndex st' = historyIndex st
  ∧ currentTool st' = currentTool st ∧ isDrawing st' = isDrawing st.

(** A click: the button goes down and up on the same cell of the canvas. *)
Definition click (row col : Z) : list Event :=
  [CanvasMouseDown (Some (row, col)); CanvasMouseUp].

(** A drag: the button goes down on a cell, the pointer moves over
    cells with the button held, and the button is released. *)
Definition drag (start : Z * Z) (path : list (Z * Z)) : list Event :=
  CanvasMouseDown (Some start)
  :: map (λ c, CanvasMouseMove 1 (Some c)) path ++ [CanvasMouseUp].

(** ** Proof automation *)

(** One of the four recursive calls in a hypothesis about a call that
    passed the guards: name its result, or close the goal if it ran out
    of depth. *)
Ltac ff_bind g1 E1 :=
  match goal with
  | H : context [floodFill_rec ?d ?w ?h ?g ?row ?col ?t ?r ≫= _] |- _ =>
      destruct (floodFill_rec d w h g row col t r) as [g1|] eqn:E1;
      [simpl in H|done]
  end.

(** * The rest of the component

    The functions of [src/App.vue] beyond the drawing and history
    engine: the pointer-to-cell clamp, the hover preview, the PNG
    export, the keyboard shortcuts and the dialog that guards
    [clearGrid] and [resizeGrid]. *)

From stdpp Require Import pretty.
From Stdlib Require Import Ascii.

Local Open Scope Z_scope.

(** ** Pointer coordinates

    The integer end of [getCanvasCoordinates]: [row] and [col] are the
    floored quotients [Math.floor(y / pixelSize)] and
    [Math.floor(x / pixelSize)], which the function clamps to the grid. *)
Definition clampCell (w h row col : Z) : Z * Z :=
  let clampedRow := Z.max 0 (Z.min (h - 1) row) in
  let clampedCol := Z.max 0 (Z.min (w - 1) col) in
  (clampedRow, clampedCol).

(** ** Hover preview

    The cells [renderHoverPreview] overlays and the colour it uses for
    them ([previewColor], before the conversion to [rgba]); a drawing
    context is assumed to exist. *)
Definition previewColor (st : State) : string :=
  if bool_decide (currentTool st = eraser) then WHITE else currentColor st.

(** The two nested loops of [renderHoverPreview]. *)
Definition hover_cells (st : State) (row col : Z) : list (Z * Z) :=
  r ← seqZ (- (brushSize st / 2)) (brushSize st);
  c ← seqZ (- (brushSize st / 2)) (brushSize st);
  if in_bounds (gridWidth st) (gridHeight st) (row + r) (col + c)
  then [(row + r, col + c)] else [].

Definition renderHoverPreview (st : State) : list (Z * Z) :=
  match hoveredCell st with
  | None => []
  | Some (row, col) =>
      if isDrawing st then []
      else if bool_decide (currentTool st = eraser) then hover_cells st row col
      else if bool_decide (currentTool st = fill)
              || bool_decide (currentTool st = eyedropper) then []
      else hover_cells st row col
  end.

(** ** Colour values

    [renderHoverPreview] is the one place where the script reads a
    colour as a value and not as text: it takes the three channels out
    of the hex text with [parseInt(previewColor.slice(i, i + 2), 16)]
    to build the [rgba(...)] fill style. *)

(** A digit of radix 16 as [parseInt] reads it, in either case. *)
Definition hex_digit (a : ascii) : option Z :=
  let n := Z.of_N (N_of_ascii a) in
  if (48 <=? n) && (n <=? 57) then Some (n - 48)
  else if (65 <=? n) && (n <=? 70) then Some (n - 55)
  else if (97 <=? n) && (n <=? 102) then Some (n - 87)
  else None.

(** The value of the longest prefix of digits; [acc] is the value of
    the digits read so far, [None] while there is none. *)
Fixpoint hex_prefix (acc : option Z) (s : string) : option Z :=
  match s with
  | EmptyString => acc
  | String a s' =>
      match hex_digit a with
      | Some d => hex_prefix (Some (16 * default 0 acc + d)) s'
      | None => acc
      end
  end.

(** White space that [parseInt] skips, among the characters below
    256: TAB, LF, VT, FF, CR, SP and NBSP. *)
Definition is_white_space (a : ascii) : bool :=
  let n := Z.of_N (N_of_ascii a) in
  ((9 <=? n) && (n <=? 13)) || (n =? 32) || (n =? 160).

Fixpoint trim_start (s : string) : string :=
  match s with
  | EmptyString => EmptyString
  | String a s' => if is_white_space a then trim_start s' else s
  end.

(** [parseInt(s, 16)]: leading white space, an optional sign and an
    optional [0x]/[0X] are skipped, then the longest prefix of hex
    digits is read; [None] is [NaN] (no digit).  The value is exact
    as long as it is below 2^53, as it is for the slices of two
    characters the script passes. *)
Definition parseInt16 (s : string) : option Z :=
  let s1 := trim_start s in
  let '(sign, s2) :=
    match s1 with
    | String "-"%char s' => (-1, s')
    | String "+"%char s' => (1, s')
    | _ => (1, s1)
    end in
  let s3 :=
    match s2 with
    | String "0"%char (String "x"%char s') => s'
    | String "0"%char (String "X"%char s') => s'
    | _ => s2
    end in
  (λ v, sign * v) <$> hex_prefix None s3.

(** The channels [r], [g], [b] of a colour text, [color.slice(1, 3)],
    [color.slice(3, 5)] and [color.slice(5, 7)] read in radix 16;
    [None] when one of them is [NaN]. *)
Definition rgb (color : string) : option (Z * Z * Z) :=
  r ← parseInt16 (String.substring 1 2 color);
  g ← parseInt16 (String.substring 3 2 color);
  b ← parseInt16 (String.substring 5 2 color);
  Some (r, g, b).

(** ** PNG export

    [exportAsPNG] draws on a fresh canvas of [gridWidth] by
    [gridHeight] pixels, which starts transparent; the image is kept as
    rows of pixels and [fillRect(col, row, 1, 1)] with an opaque colour
    sets pixel [col] of row [row].  A cell missing from the grid leaves
    [fillStyle], and here the pixel, as it was. *)
Definition TRANSPARENT : string := "rgba(0, 0, 0, 0)".

Definition exportAsPNG (st : State) : list (list string) :=
  let canvas := create (gridWidth st) (gridHeight st) TRANSPARENT in
  foldl (λ img row,
           foldl (λ img col,
                    match get_cell (grid st) row col with
                    | Some color => set_cell img row col color
                    | None => img
                    end)
                 img (seqZ 0 (gridWidth st)))
        canvas (seqZ 0 (gridHeight st)).

(** ** Keyboard shortcuts *)

Record KeyEvent : Type := mkKeyEvent {
  ctrlKey : bool;
  metaKey : bool;
  shiftKey : bool;
  key : string
}.

(** The [keydown] listener installed in [onMounted]. *)
Definition onKeyDown (event : KeyEvent) (st : State) : State :=
  if (ctrlKey event || metaKey event) && bool_decide (key event = "z")
     && negb (shiftKey event)
  then undo st
  else if (ctrlKey event || metaKey event)
          && (bool_decide (key event = "y")
              || (bool_decide (key event = "z") && shiftKey event))
  then redo st
  else st.

(** ** Dialogs *)

Inductive DialogType : Set := dlg_confirm | dlg_prompt | dlg_alert.

#[global] Instance DialogType_eq_dec : EqDecision DialogType.
Proof. solve_decision. Defined.

(** The three closures the component passes to [showDialog]: the one
    of [clearGrid], the one of [resizeGrid], and [() => {}]. *)
Inductive Callback : Set := cb_clearGrid | cb_resizeGrid | cb_nothing.

(** What a callback is called with: nothing, a boolean or a string. *)
Inductive CallbackArg : Type :=
  | arg_none
  | arg_bool (b : bool)
  | arg_string (s : string).

(** JS truthiness and [String(value)] of such an argument. *)
Definition truthy (a : CallbackArg) : bool :=
  match a with
  | arg_none => false
  | arg_bool b => b
  | arg_string s => negb (bool_decide (s = ""))
  end.

Definition arg_to_string (a : CallbackArg) : string :=
  match a with
  | arg_none => "undefined"
  | arg_bool true => "true"
  | arg_bool false => "false"
  | arg_string s => s
  end.

(** The editor state together with the dialog refs. *)
Record App : Type := mkApp {
  editor : State;
  dialogVisible : bool;
  dialogType : DialogType;
  dialogTitle : string;
  dialogMessage : string;
  dialogInput : string;
  dialogCallback : option Callback
}.

Definition set_editor (v : State) (app : App) : App :=
  mkApp v (dialogVisible app) (dialogType app) (dialogTitle app)
    (dialogMessage app) (dialogInput app) (dialogCallback app).
Definition set_dialogInput (v : string) (app : App) : App :=
  mkApp (editor app) (dialogVisible app) (dialogType app) (dialogTitle app)
    (dialogMessage app) v (dialogCallback app).

Definition showDialog (type : DialogType) (title message : string)
    (callback : Callback) (app : App) : App :=
  mkApp (editor app) true type title message "" (Some callback).

Definition closeDialog (app : App) : App :=
  mkApp (editor app) false (dialogType app) (dialogTitle app)
    (dialogMessage app) (dialogInput app) None.

Section dialogs.
(** [parseInt] of the language, on the string it is given: [None] for
    [NaN], the integer otherwise. *)
Variable parseInt : string → option Z.

(** The bodies of the three closures. *)
Definition run_callback (callback : Callback) (value : CallbackArg)
    (app : App) : App :=
  match callback with
  | cb_clearGrid =>
      if truthy value then set_editor (clearGrid (editor app)) app else app
  | cb_resizeGrid =>
      if negb (truthy value) then app
      else
        match parseInt (arg_to_string value) with
        | None =>
            showDialog dlg_alert "Invalid Input"
              "Please enter a valid number." cb_nothing app
        | Some newSize =>
            if (newSize <? 8) || (64 <? newSize) then
              showDialog dlg_alert "Invalid Size"
                "Grid size must be between 8 and 64." cb_nothing app
            else
              set_editor
                (initializeGrid
                   (set_gridHeight newSize
                      (set_gridWidth newSize (editor app)))) app
        end
  | cb_nothing => app
  end.

Definition confirmDialog (app : App) : App :=
  let app1 :=
    match dialogCallback app with
    | Some callback =>
        match dialogType app with
        | dlg_prompt => run_callback callback (arg_string (dialogInput app)) app
        | dlg_confirm => run_callback callback (arg_bool true) app
        | dlg_alert => run_callback callback arg_none app
        end
    | None => app
    end in
  closeDialog app1.

Definition cancelDialog (app : App) : App :=
  let app1 :=
    match dialogCallback app with
    | Some callback =>
        if bool_decide (dialogType app = dlg_confirm)
        then run_callback callback (arg_bool false) app
        else app
    | None => app
    end in
  closeDialog app1.
End dialogs.

(** The buttons "Clear" and "Resize": the functions [clearGrid] and
    [resizeGrid] of the source up to the callback. *)
Definition clearGrid_button (app : App) : App :=
  showDialog dlg_confirm "Clear Canvas"
    "Are you sure you want to clear the entire canvas?" cb_clearGrid app.

Definition resizeGrid_button (app : App) : App :=
  showDialog dlg_prompt "Resize Canvas"
    ("Enter grid size (8-64, current: " +:+ pretty (gridWidth (editor app))
     +:+ "x" +:+ pretty (gridHeight (editor app)) +:+ "):")
    cb_resizeGrid app.

(** ** Predicates used in the statements *)

(** [q] can be reached from [p] through 4-adjacent cells that all hold
    the colour [t] in [g] ([p] included). *)
Inductive connected (g : list (list string)) (t : string)
  : Z * Z → Z * Z → Prop :=
  | connected_refl p :
      get_cell g p.1 p.2 = Some t → connected g t p p
  | connected_step p q q' :
      connected g t p q → adjacent4 q q' →
      get_cell g q'.1 q'.2 = Some t → connected g t p q'.

(** With no gesture in progress the live grid is the history entry
    under the cursor. *)
Definition idle_synced (st : State) : Prop :=
  isDrawing st = false →
  history st !! Z.to_nat (historyIndex st) = Some (grid st).

(** All cells of a [w] by [h] grid, row by row. *)
Definition all_cells (w h : Z) : list (Z * Z) :=
  row ← seqZ 0 h; col ← seqZ 0 w; [(row, col)].

(** What no drawing operation touches. *)
Definition same_frame (st st' : State) : Prop :=
  gridWidth st' = gridWidth st ∧ gridHeight st' = gridHeight st
  ∧ isDrawing st' = isDrawing st ∧ brushSize st' = brushSize st.

(** The grid is square, of a side between 8 and 64. *)
Definition square_dims (st : State) : Prop :=
  gridWidth st = gridHeight st ∧ 8 ≤ gridWidth st ≤ 64.

(** * Properties *)

(** ** Cells *)

Section cells.
Implicit Types (g : list (list string)) (row col : Z) (v : string).

Lemma get_cell_lookup g row col :
  0 ≤ row → 0 ≤ col →
  get_cell g row col = g !! Z.to_nat row ≫= λ r, r !! Z.to_nat col.
Proof.
  intros Hr Hc. unfold get_cell.
  destruct (Z.ltb_spec row 0), (Z.ltb_spec col 0); simpl; auto; lia.
Qed.

Lemma get_cell_Some_nonneg g row col v :
  get_cell g row col = Some v → 0 ≤ row ∧ 0 ≤ col.
Proof.
  unfold get_cell.
  destruct (Z.ltb_spec row 0), (Z.ltb_spec col 0); simpl; try discriminate.
  auto.
Qed.

Lemma get_set_cell_eq g row col v0 v :
  get_cell g row col = Some v0 →
  get_cell (set_cell g row col v) row col = Some v.
Proof.
  intros H. destruct (get_cell_Some_nonneg _ _ _ _ H) as [Hr Hc].
  rewrite get_cell_lookup in * by lia. unfold set_cell.
  destruct (Z.ltb_spec row 0), (Z.ltb_spec col 0); simpl; try lia.
  rewrite list_lookup_alter_eq.
  destruct (g !! Z.to_nat row) as [r|] eqn:E; simpl in *; [|discriminate].
  apply list_lookup_insert_eq. by eapply lookup_lt_Some.
Qed.

Lemma get_set_cell_ne g row col v row' col' :
  (row', col') ≠ (row, col) →
  get_cell (set_cell g row col v) row' col' = get_cell g row' col'.
Proof.
  intros Hne. unfold set_cell.
  destruct (Z.ltb_spec row 0), (Z.ltb_spec col 0); simpl; auto.
  unfold get_cell.
  destruct (Z.ltb_spec row' 0), (Z.ltb_spec col' 0); simpl; auto.
  destruct (decide (Z.to_nat row = Z.to_nat row')) as [E|E].
  - rewrite <- E, list_lookup_alter_eq.
    destruct (g !! Z.to_nat row); simpl; auto.
    apply list_lookup_insert_ne. intros E'.
    apply Hne. f_equal; lia.
  - by rewrite list_lookup_alter_ne.
Qed.

Lemma get_set_cell g row col v row' col' :
  get_cell (set_cell g row col v) row' col' = get_cell g row' col'
  ∨ (row' = row ∧ col' = col ∧
     get_cell (set_cell g row col v) row' col' = Some v).
Proof.
  destruct (decide ((row', col') = (row, col))) as [E|E].
  - injection E as -> ->.
    destruct (get_cell g row col) eqn:Hg.
    + right. eauto using get_set_cell_eq.
    + left. unfold set_cell, get_cell in *.
      destruct ((row <? 0) || (col <? 0)); auto.
      rewrite list_lookup_alter_eq.
      destruct (g !! Z.to_nat row) as [r|]; simpl in *; auto.
      apply lookup_ge_None. apply lookup_ge_None in Hg.
      by rewrite length_insert.
  - left. by apply get_set_cell_ne.
Qed.

Lemma set_cell_wf w h g row col v :
  wf_grid w h g → wf_grid w h (set_cell g row col v).
Proof.
  intros [Hl Hr]. unfold set_cell.
  destruct ((row <? 0) || (col <? 0)); [done|].
  split; [by rewrite length_alter|].
  apply Forall_alter; [done|]. intros r _ Hlen. by rewrite length_insert.
Qed.

Lemma wf_get_cell w h g row col :
  wf_grid w h g → in_bounds w h row col = true →
  is_Some (get_cell g row col).
Proof.
  intros [Hl Hr] Hb. unfold in_bounds in Hb.
  repeat (apply andb_prop in Hb as [Hb ?]).
  rewrite get_cell_lookup by lia.
  destruct (lookup_lt_is_Some_2 g (Z.to_nat row)) as [r Er]; [lia|].
  rewrite Er. simpl. apply lookup_lt_is_Some_2.
  rewrite Forall_lookup in Hr. rewrite (Hr _ _ Er). lia.
Qed.

Lemma wf_get_cell_bounds w h g row col v :
  0 ≤ w → 0 ≤ h →
  wf_grid w h g → get_cell g row col = Some v →
  in_bounds w h row col = true.
Proof.
  intros Hw Hh [Hl Hr] Hg.
  destruct (get_cell_Some_nonneg _ _ _ _ Hg) as [? ?].
  rewrite get_cell_lookup in Hg by lia.
  destruct (g !! Z.to_nat row) as [r|] eqn:Er; [|discriminate].
  simpl in Hg. apply lookup_lt_Some in Hg, Er as Er'.
  rewrite Forall_lookup in Hr. rewrite (Hr _ _ Er) in Hg.
  unfold in_bounds. repeat (apply andb_true_intro; split); lia.
Qed.

Lemma create_wf w h v : wf_grid w h (create w h v).
Proof.
  unfold create. split; [by rewrite length_replicate|].
  apply Forall_replicate. by rewrite length_replicate.
Qed.

Lemma get_cell_create w h v row col :
  in_bounds w h row col = true → get_cell (create w h v) row col = Some v.
Proof.
  intros Hb. unfold in_bounds in Hb.
  repeat (apply andb_prop in Hb as [Hb ?]).
  rewrite get_cell_lookup by lia. unfold create.
  rewrite lookup_replicate_2 by lia. simpl.
  apply lookup_replicate_2. lia.
Qed.

(** Two grids of one shape with the same cells are the same grid. *)
Lemma grid_ext w h g1 g2 :
  wf_grid w h g1 → wf_grid w h g2 →
  (∀ row col, in_bounds w h row col = true →
              get_cell g1 row col = get_cell g2 row col) →
  g1 = g2.
Proof.
  intros [Hl1 Hr1] [Hl2 Hr2] Hext.
  rewrite Forall_lookup in Hr1, Hr2.
  apply list_eq. intros i.
  destruct (g1 !! i) as [r1|] eqn:E1.
  - destruct (lookup_lt_is_Some_2 g2 i) as [r2 E2].
    { apply lookup_lt_Some in E1. lia. }
    rewrite E2. f_equal. apply list_eq. intros j.
    destruct (decide (j < length r1)%nat) as [Hj|Hj].
    + specialize (Hext (Z.of_nat i) (Z.of_nat j)).
      rewrite !get_cell_lookup, !Nat2Z.id, E1, E2 in Hext by lia.
      apply Hext. apply lookup_lt_Some in E1 as Hi.
      rewrite (Hr1 _ _ E1) in Hj.
      unfold in_bounds. repeat (apply andb_true_intro; split); lia.
    + rewrite !lookup_ge_None_2; auto; try lia.
      rewrite (Hr2 _ _ E2), <- (Hr1 _ _ E1). lia.
  - symmetry. apply lookup_ge_None. apply lookup_ge_None in E1. lia.
Qed.
End cells.

(** ** History *)

Section history.
Implicit Types (st : State) (g : list (list string))
  (H gs : list (list (list string))).

Lemma length_tail {A} (l : list A) : length (tail l) = pred (length l).
Proof. by destruct l. Qed.

Lemma js_slice0_nonneg {A} (e : Z) (l : list A) :
  0 ≤ e → js_slice0 e l = take (Z.to_nat e) l.
Proof. intros. unfold js_slice0. destruct (Z.ltb_spec e 0); [lia|done]. Qed.

(** Recording below capacity appends after the cursor and advances it. *)
Lemma saveState_append st :
  -1 ≤ historyIndex st →
  ∀ h1, h1 = take (Z.to_nat (historyIndex st + 1)) (history st) →
  Z.of_nat (length h1) < MAX_HISTORY →
  saveState st
  = set_historyIndex (historyIndex st + 1) (set_history (h1 ++ [grid st]) st).
Proof.
  intros Hi h1 -> Hlen. unfold saveState.
  rewrite js_slice0_nonneg by lia.
  destruct (Z.ltb_spec MAX_HISTORY (Z.of_nat (length
    (take (Z.to_nat (historyIndex st + 1)) (history st) ++ [grid st]))))
    as [Hlt|Hle]; [|done].
  rewrite length_app in Hlt. simpl in Hlt. lia.
Qed.

(** Recording at capacity drops the oldest entry and keeps the cursor. *)
Lemma saveState_evict st :
  -1 ≤ historyIndex st →
  ∀ h1, h1 = take (Z.to_nat (historyIndex st + 1)) (history st) →
  MAX_HISTORY ≤ Z.of_nat (length h1) →
  saveState st = set_history (tail (h1 ++ [grid st])) st.
Proof.
  intros Hi h1 -> Hlen. unfold saveState.
  rewrite js_slice0_nonneg by lia.
  destruct (Z.ltb_spec MAX_HISTORY (Z.of_nat (length
    (take (Z.to_nat (historyIndex st + 1)) (history st) ++ [grid st]))))
    as [Hlt|Hle]; [done|].
  rewrite length_app in Hle. simpl in Hle. lia.
Qed.

Lemma saveState_grid st : grid (saveState st) = grid st.
Proof. unfold saveState. by destruct (_ <? _). Qed.

Lemma saveState_length st :
  Z.of_nat (length (history st)) ≤ MAX_HISTORY →
  Z.of_nat (length (history (saveState st))) ≤ MAX_HISTORY.
Proof.
  intros Hcap. unfold saveState.
  set (h1 := js_slice0 _ _).
  assert (length h1 ≤ length (history st))%nat as Hh1.
  { unfold h1, js_slice0. destruct (_ <? _); rewrite length_take; lia. }
  destruct (Z.ltb_spec MAX_HISTORY (Z.of_nat (length (h1 ++ [grid st]))))
    as [Hlt|Hle]; simpl; [|done].
  rewrite length_tail, length_app. simpl. lia.
Qed.

(** A stack whose cursor is on its last entry, after one more record. *)
Lemma record_at_end g st :
  historyIndex st = Z.of_nat (length (history st)) - 1 →
  Z.of_nat (length (history st)) ≤ MAX_HISTORY →
  let H' := history st ++ [g] in
  history (record g st) = drop (length H' - 50) H'
  ∧ historyIndex (record g st) = Z.of_nat (length (history (record g st))) - 1
  ∧ grid (record g st) = g.
Proof.
  intros Hi Hcap H'. unfold record.
  assert (take (Z.to_nat (historyIndex (set_grid g st) + 1))
               (history (set_grid g st)) = history st) as Htake.
  { simpl. rewrite Hi. apply take_ge. lia. }
  assert (-1 ≤ historyIndex (set_grid g st)) as Hi' by (simpl; lia).
  unfold MAX_HISTORY in *.
  destruct (decide (length (history st) = 50%nat)) as [E|E].
  - rewrite (saveState_evict (set_grid g st) Hi' (history st));
      [|done|unfold MAX_HISTORY; lia].
    simpl. unfold H'. rewrite length_app, E. simpl.
    split; [by destruct (history st)|].
    rewrite length_tail, length_app, E. simpl. split; [lia|done].
  - rewrite (saveState_append (set_grid g st) Hi' (history st));
      [|done|unfold MAX_HISTORY; lia].
    simpl. unfold H'. rewrite !length_app. simpl.
    replace (length (history st) + 1 - 50)%nat with 0%nat by lia.
    split; [done|]. split; [lia|done].
Qed.

Lemma record_all_at_end gs : ∀ st,
  historyIndex st = Z.of_nat (length (history st)) - 1 →
  Z.of_nat (length (history st)) ≤ MAX_HISTORY →
  let H' := history st ++ gs in
  history (record_all gs st) = drop (length H' - 50) H'
  ∧ historyIndex (record_all gs st)
    = Z.of_nat (length (history (record_all gs st))) - 1
  ∧ grid (record_all gs st) = default (grid st) (last gs).
Proof.
  induction gs as [|g gs IH]; intros st Hi Hcap H'.
  - simpl. unfold H'. rewrite app_nil_r. unfold MAX_HISTORY in *.
    replace (length (history st) - 50)%nat with 0%nat by lia. done.
  - destruct (record_at_end g st Hi Hcap) as (Hh & Hi' & Hg).
    assert (Z.of_nat (length (history (record g st))) ≤ MAX_HISTORY) as Hcap'.
    { rewrite Hh, length_drop. unfold MAX_HISTORY. lia. }
    destruct (IH (record g st) Hi' Hcap') as (IHh & IHi & IHg).
    change (record_all (g :: gs) st) with (record_all gs (record g st)).
    split; [|split; [done|]].
    + rewrite IHh, Hh. unfold H'.
      rewrite !length_app, length_drop, !length_app. simpl.
      set (n := length (history st)). set (m := length gs).
      replace (history st ++ g :: gs) with ((history st ++ [g]) ++ gs)
        by (by rewrite <- app_assoc).
      assert (n + 1 - 50 ≤ length (history st ++ [g]))%nat as Hle.
      { rewrite length_app. simpl. fold n. lia. }
      rewrite <- (drop_app_le _ gs _ Hle), drop_drop. f_equal. lia.
    + rewrite IHg, Hg. rewrite last_cons. by destruct (last gs).
Qed.

Lemma initializeGrid_history st :
  history (initializeGrid st) = [create (gridWidth st) (gridHeight st) WHITE]
  ∧ historyIndex (initializeGrid st) = 0
  ∧ grid (initializeGrid st) = create (gridWidth st) (gridHeight st) WHITE.
Proof. done. Qed.

(** Moving the cursor with [undo] and [redo]. *)
Lemma undo_step st g :
  0 < historyIndex st →
  history st !! Z.to_nat (historyIndex st - 1) = Some g →
  undo st = set_grid g (set_historyIndex (historyIndex st - 1) st).
Proof.
  intros Hi Hg. unfold undo.
  destruct (Z.ltb_spec 0 (historyIndex st)); [|lia].
  simpl. by rewrite Hg.
Qed.

Lemma redo_step st g :
  historyIndex st < Z.of_nat (length (history st)) - 1 →
  history st !! Z.to_nat (historyIndex st + 1) = Some g →
  redo st = set_grid g (set_historyIndex (historyIndex st + 1) st).
Proof.
  intros Hi Hg. unfold redo.
  destruct (Z.ltb_spec (historyIndex st) (Z.of_nat (length (history st)) - 1));
    [|lia].
  simpl. by rewrite Hg.
Qed.

Lemma undo_at_oldest st : historyIndex st ≤ 0 → undo st = st.
Proof.
  intros Hi. unfold undo. by destruct (Z.ltb_spec 0 (historyIndex st)); [lia|].
Qed.

Lemma redo_at_newest st :
  Z.of_nat (length (history st)) - 1 ≤ historyIndex st → redo st = st.
Proof.
  intros Hi. unfold redo.
  by destruct (Z.ltb_spec (historyIndex st)
                 (Z.of_nat (length (history st)) - 1)); [lia|].
Qed.

Lemma at_entry_at_entry i g j g' st :
  at_entry i g (at_entry j g' st) = at_entry i g st.
Proof. done. Qed.

Lemma undo_iter (j : nat) : ∀ st (i : nat) g,
  historyIndex st = Z.of_nat i → (i < length (history st))%nat →
  (j ≤ i)%nat → (0 < j)%nat →
  history st !! (i - j)%nat = Some g →
  Nat.iter j undo st = at_entry (i - j) g st.
Proof.
  induction j as [|j IH]; intros st i g Hi Hlen Hj Hpos Hg; [lia|].
  rewrite Nat.iter_succ_r.
  destruct (lookup_lt_is_Some_2 (history st) (i - 1)) as [g1 Hg1]; [lia|].
  rewrite (undo_step st g1); [|lia|].
  2:{ rewrite Hi.
      by replace (Z.to_nat (Z.of_nat i - 1)) with (i - 1)%nat by lia. }
  rewrite Hi. replace (Z.of_nat i - 1) with (Z.of_nat (i - 1)) by lia.
  fold (at_entry (i - 1) g1 st).
  destruct j as [|j].
  - simpl. rewrite Hg in Hg1. by injection Hg1 as ->.
  - rewrite (IH _ (i - 1)%nat g); simpl; try lia.
    + rewrite at_entry_at_entry. f_equal. lia.
    + by replace (i - 1 - S j)%nat with (i - S (S j))%nat by lia.
Qed.

Lemma redo_iter (j : nat) : ∀ st (i : nat) g,
  historyIndex st = Z.of_nat i → (0 < j)%nat →
  history st !! (i + j)%nat = Some g →
  Nat.iter j redo st = at_entry (i + j) g st.
Proof.
  induction j as [|j IH]; intros st i g Hi Hpos Hg; [lia|].
  rewrite Nat.iter_succ_r.
  apply lookup_lt_Some in Hg as Hlt.
  destruct (lookup_lt_is_Some_2 (history st) (i + 1)) as [g1 Hg1]; [lia|].
  rewrite (redo_step st g1); [|lia|].
  2:{ rewrite Hi.
      by replace (Z.to_nat (Z.of_nat i + 1)) with (i + 1)%nat by lia. }
  rewrite Hi. replace (Z.of_nat i + 1) with (Z.of_nat (i + 1)) by lia.
  fold (at_entry (i + 1) g1 st).
  destruct j as [|j].
  - simpl. rewrite Hg in Hg1. by injection Hg1 as ->.
  - rewrite (IH _ (i + 1)%nat g); simpl; try lia.
    + rewrite at_entry_at_entry. f_equal. lia.
    + by replace (i + 1 + S j)%nat with (i + S (S j))%nat by lia.
Qed.
End history.

(** ** Colour history *)

Section colors.
Implicit Types (st : State) (color : string) (l : list string).

Lemma addToColorHistory_colors color st :
  colorHistory (addToColorHistory color st)
  = color :: take 19 (filter (λ c, c ≠ color) (colorHistory st)).
Proof. done. Qed.

Lemma filter_ne_absent color l :
  color ∉ l → filter (λ c, c ≠ color) l = l.
Proof.
  induction l as [|x l IH]; [done|]. intros Hn.
  apply not_elem_of_cons in Hn as [Hx Hl].
  rewrite filter_cons_True by congruence. by rewrite IH.
Qed.

Lemma filter_ne_length color l :
  NoDup l → color ∈ l →
  S (length (filter (λ c, c ≠ color) l)) = length l.
Proof.
  induction l as [|x l IH]; intros Hnd Hin; [by apply elem_of_nil in Hin|].
  apply NoDup_cons in Hnd as [Hx Hnd].
  destruct (decide (x = color)) as [->|Hne].
  - rewrite filter_cons_False by (intros ?; congruence).
    by rewrite filter_ne_absent.
  - rewrite filter_cons_True by done. simpl. f_equal. apply IH; [done|].
    apply elem_of_cons in Hin as [?|?]; [congruence|done].
Qed.

Lemma addToColorHistory_NoDup color st :
  NoDup (colorHistory st) → NoDup (colorHistory (addToColorHistory color st)).
Proof.
  intros Hnd. rewrite addToColorHistory_colors. apply NoDup_cons. split.
  - intros Hin. apply elem_of_take in Hin as (i & Hin & _).
    apply list_elem_of_lookup_2, list_elem_of_filter in Hin as [Hne _]. done.
  - eapply sublist_NoDup; [|apply sublist_take]. by apply NoDup_filter.
Qed.

Lemma addToColorHistory_length color st :
  (length (colorHistory (addToColorHistory color st)) ≤ 20)%nat.
Proof. rewrite addToColorHistory_colors. simpl. rewrite length_take. lia. Qed.
End colors.

(** ** Flood fill *)

Section count.
Implicit Types (g : list (list string)) (t r : string).

Lemma count_row_insert t r (l : list string) (j : nat) :
  t ≠ r → l !! j = Some t →
  S (length (filter (λ c, c = t) (<[j:=r]> l)))
  = length (filter (λ c, c = t) l).
Proof.
  intros Hne. revert j. induction l as [|x l IH]; intros [|j] Hj;
    simplify_eq/=.
  - rewrite filter_cons_False by congruence.
    by rewrite filter_cons_True by done.
  - destruct (decide (x = t)) as [->|Hx].
    + rewrite !filter_cons_True by done. simpl. f_equal. by apply IH.
    + rewrite !filter_cons_False by done. by apply IH.
Qed.

Lemma count_set_cell t r g row col :
  t ≠ r → get_cell g row col = Some t →
  S (count_color t (set_cell g row col r)) = count_color t g.
Proof.
  intros Hne Hg. destruct (get_cell_Some_nonneg _ _ _ _ Hg) as [Hr Hc].
  rewrite get_cell_lookup in Hg by lia. unfold set_cell.
  destruct (Z.ltb_spec row 0), (Z.ltb_spec col 0); simpl; try lia.
  generalize dependent (Z.to_nat row). intros i. revert i.
  unfold count_color.
  induction g as [|x g IH]; intros [|i] Hi; simplify_eq/=.
  - rewrite <- (count_row_insert t r x (Z.to_nat col)) by done. done.
  - rewrite <- (IH i) by done. lia.
Qed.
End count.

Section floodFill.
Variables (w h : Z) (t r : string).
Implicit Types (g : list (list string)) (row col : Z) (d : nat).

(** One level of the recursion, case by case. *)
Lemma floodFill_rec_stop d g row col :
  t = r ∨ in_bounds w h row col = false ∨ get_cell g row col ≠ Some t →
  floodFill_rec (S d) w h g row col t r = Some g.
Proof.
  intros Hstop. simpl.
  destruct (bool_decide_reflect (t = r)); [done|].
  destruct (in_bounds w h row col); simpl; [|done].
  destruct (bool_decide_reflect (get_cell g row col ≠ Some t)); [done|].
  destruct Hstop as [?|[?|?]]; done.
Qed.

Lemma floodFill_rec_go d g row col :
  t ≠ r → in_bounds w h row col = true → get_cell g row col = Some t →
  floodFill_rec (S d) w h g row col t r =
    g1 ← floodFill_rec d w h (set_cell g row col r) (row - 1) col t r;
    g2 ← floodFill_rec d w h g1 (row + 1) col t r;
    g3 ← floodFill_rec d w h g2 row (col - 1) t r;
    floodFill_rec d w h g3 row (col + 1) t r.
Proof.
  intros Hne Hb Hg. simpl.
  destruct (bool_decide_reflect (t = r)); [done|].
  rewrite Hb. simpl.
  destruct (bool_decide_reflect (get_cell g row col ≠ Some t)); done.
Qed.

Lemma floodFill_rec_cases g row col :
  (t = r ∨ in_bounds w h row col = false ∨ get_cell g row col ≠ Some t)
  ∨ (t ≠ r ∧ in_bounds w h row col = true ∧ get_cell g row col = Some t).
Proof.
  destruct (decide (t = r)); [naive_solver|].
  destruct (in_bounds w h row col); [|naive_solver].
  destruct (decide (get_cell g row col = Some t)); naive_solver.
Qed.

(** Termination: a depth above the number of target-coloured cells
    is never used up, and the result has no more such cells. *)
Lemma floodFill_rec_total d : ∀ g row col,
  (count_color t g < d)%nat →
  ∃ g', floodFill_rec d w h g row col t r = Some g'
        ∧ (count_color t g' ≤ count_color t g)%nat
        ∧ (t ≠ r → in_bounds w h row col = true →
           get_cell g row col = Some t →
           (count_color t g' < count_color t g)%nat).
Proof.
  induction d as [|d IH]; intros g row col Hd; [lia|].
  destruct (floodFill_rec_cases g row col) as [Hstop|(Hne & Hb & Hg)].
  - rewrite floodFill_rec_stop by done. exists g. split; [done|].
    split; [done|]. intros. destruct Hstop as [?|[?|?]]; congruence.
  - rewrite floodFill_rec_go by done.
    pose proof (count_set_cell t r g row col Hne Hg) as Hc.
    destruct (IH (set_cell g row col r) (row - 1) col)
      as (g1 & -> & H1 & _); [lia|]. simpl.
    destruct (IH g1 (row + 1) col) as (g2 & -> & H2 & _); [lia|]. simpl.
    destruct (IH g2 row (col - 1)) as (g3 & -> & H3 & _); [lia|]. simpl.
    destruct (IH g3 row (col + 1)) as (g4 & -> & H4 & _); [lia|].
    exists g4. split; [done|]. split; [lia|]. intros. lia.
Qed.

(** More depth does not change a result. *)
Lemma floodFill_rec_mono d : ∀ d' g row col g',
  floodFill_rec d w h g row col t r = Some g' → (d ≤ d')%nat →
  floodFill_rec d' w h g row col t r = Some g'.
Proof.
  induction d as [|d IH]; intros d' g row col g' Hff Hd; [done|].
  destruct d' as [|d']; [lia|].
  destruct (floodFill_rec_cases g row col) as [Hstop|(Hne & Hb & Hg)].
  - rewrite floodFill_rec_stop in * by done. done.
  - rewrite floodFill_rec_go in * by done.
    ff_bind g1 E1. rewrite (IH d' _ _ _ _ E1) by lia. simpl.
    ff_bind g2 E2. rewrite (IH d' _ _ _ _ E2) by lia. simpl.
    ff_bind g3 E3. rewrite (IH d' _ _ _ _ E3) by lia. simpl.
    apply IH; [done|lia].
Qed.

(** The shape of the grid is kept. *)
Lemma floodFill_rec_wf d : ∀ g row col g',
  floodFill_rec d w h g row col t r = Some g' →
  wf_grid w h g → wf_grid w h g'.
Proof.
  induction d as [|d IH]; intros g row col g' Hff Hwf; [done|].
  destruct (floodFill_rec_cases g row col) as [Hstop|(Hne & Hb & Hg)].
  - rewrite floodFill_rec_stop in Hff by done. by simplify_eq.
  - rewrite floodFill_rec_go in Hff by done.
    ff_bind g1 E1. ff_bind g2 E2. ff_bind g3 E3.
    apply (IH _ _ _ _ Hff), (IH _ _ _ _ E3), (IH _ _ _ _ E2),
      (IH _ _ _ _ E1).
    by apply set_cell_wf.
Qed.
End floodFill.

Section floodFill_spec.
Variables (w h : Z) (t r : string).
Hypothesis t_ne_r : t ≠ r.
Implicit Types (g : list (list string)) (row col : Z) (d : nat).

Lemma repainted_refl g : repainted t r g g.
Proof. intros row col. by left. Qed.

Lemma repainted_trans g1 g2 g3 :
  repainted t r g1 g2 → repainted t r g2 g3 → repainted t r g1 g3.
Proof.
  intros H12 H23 row col.
  destruct (H12 row col) as [E12|[E1 E2]], (H23 row col) as [E23|[E2' E3]].
  - left. congruence.
  - right. split; congruence.
  - right. split; congruence.
  - congruence.
Qed.

Lemma repainted_set_cell g row col :
  get_cell g row col = Some t → repainted t r g (set_cell g row col r).
Proof.
  intros Hg row' col'.
  destruct (get_set_cell g row col r row' col') as [E|(-> & -> & E)];
    [by left|by right].
Qed.

(** A cell that does not hold the target colour never acquires it. *)
Lemma repainted_not_target g g' row col :
  repainted t r g g' →
  get_cell g row col ≠ Some t → get_cell g' row col ≠ Some t.
Proof. intros Hrep Hg. destruct (Hrep row col) as [E|[E1 E2]]; congruence. Qed.

(** What one call establishes: only target cells are repainted; the
    start cell, if in bounds, no longer holds the target colour; and
    around every cell repainted by the call no in-bounds neighbour is
    left with the target colour. *)
Lemma floodFill_rec_spec d : ∀ g row col g',
  floodFill_rec d w h g row col t r = Some g' →
  repainted t r g g'
  ∧ (in_bounds w h row col = true → get_cell g' row col ≠ Some t)
  ∧ (∀ p q, get_cell g p.1 p.2 = Some t → get_cell g' p.1 p.2 = Some r →
            adjacent4 p q → in_bounds w h q.1 q.2 = true →
            get_cell g' q.1 q.2 ≠ Some t).
Proof.
  induction d as [|d IH]; intros g row col g' Hff; [done|].
  destruct (floodFill_rec_cases w h t r g row col)
    as [Hstop|(_ & Hb & Hg)].
  - rewrite floodFill_rec_stop in Hff by done. simplify_eq.
    split; [apply repainted_refl|]. split.
    + intros Hb. destruct Hstop as [?|[?|?]]; congruence.
    + intros p q H1 H2. congruence.
  - rewrite floodFill_rec_go in Hff by done.
    set (g0 := set_cell g row col r) in *.
    ff_bind g1 E1. ff_bind g2 E2. ff_bind g3 E3.
    destruct (IH _ _ _ _ E1) as (M1 & S1 & C1).
    destruct (IH _ _ _ _ E2) as (M2 & S2 & C2).
    destruct (IH _ _ _ _ E3) as (M3 & S3 & C3).
    destruct (IH _ _ _ _ Hff) as (M4 & S4 & C4).
    assert (repainted t r g g0) as M0 by by apply repainted_set_cell.
    assert (get_cell g0 row col = Some r) as Hg0
      by (by eapply get_set_cell_eq).
    split; [|split].
    + eauto using repainted_trans.
    + intros _.
      apply (repainted_not_target g0);
        [eauto using repainted_trans|congruence].
    + intros [p1 p2] [q1 q2] Hp Hp' Hadj Hq. simpl in *.
      destruct (decide ((p1, p2) = (row, col))) as [E|E].
      * simplify_eq. destruct Hadj as [[??]|[[??]|[[??]|[??]]]];
          simpl in *; subst.
        -- apply (repainted_not_target g1);
             [eauto using repainted_trans|auto].
        -- apply (repainted_not_target g2);
             [eauto using repainted_trans|auto].
        -- apply (repainted_not_target g3); auto.
        -- auto.
      * assert (get_cell g0 p1 p2 = Some t) as Hp0.
        { unfold g0. by rewrite get_set_cell_ne. }
        destruct (M1 p1 p2) as [E1'|[_ E1']].
        2:{ apply (repainted_not_target g1);
              [eauto using repainted_trans|].
            by apply (C1 (p1, p2) (q1, q2)). }
        destruct (M2 p1 p2) as [E2'|[_ E2']].
        2:{ apply (repainted_not_target g2);
              [eauto using repainted_trans|].
            apply (C2 (p1, p2) (q1, q2)); simpl; congruence. }
        destruct (M3 p1 p2) as [E3'|[_ E3']].
        2:{ apply (repainted_not_target g3); [done|].
            apply (C3 (p1, p2) (q1, q2)); simpl; congruence. }
        apply (C4 (p1, p2) (q1, q2)); simpl; congruence.
Qed.
End floodFill_spec.

Section floodFill_claims.
Implicit Types (st : State) (g : list (list string)) (row col : Z)
  (t r : string).

(** [floodFill] only replaces the grid, by the result of the recursion. *)
Lemma floodFill_total row col t r st :
  ∃ g', floodFill_rec (S (count_color t (grid st)))
          (gridWidth st) (gridHeight st) (grid st) row col t r = Some g'
        ∧ floodFill row col t r st = set_grid g' st.
Proof.
  destruct (floodFill_rec_total (gridWidth st) (gridHeight st) t r
              (S (count_color t (grid st))) (grid st) row col)
    as (g' & Hff & _); [lia|].
  exists g'. split; [done|]. unfold floodFill. by rewrite Hff.
Qed.

(** C10. The recursion of [floodFill] terminates on every grid, for
    all coordinates and colours: a depth above the number of
    target-coloured cells is never used up (and any larger depth
    gives the same grid).  A call that fails one of the three guards
    returns at once; a call that passes them repaints a cell that
    held the target colour, so the number of such cells drops by one
    before it recurses and is smaller afterwards. *)
Theorem floodFill_terminates (w h : Z) g row col t r :
  ∃ g',
    (∀ extra : nat,
       floodFill_rec (S (count_color t g) + extra) w h g row col t r
       = Some g')
    ∧ (count_color t g' ≤ count_color t g)%nat
    ∧ (t = r ∨ in_bounds w h row col = false ∨ get_cell g row col ≠ Some t
       → g' = g)
    ∧ (t ≠ r ∧ in_bounds w h row col = true ∧ get_cell g row col = Some t
       → S (count_color t (set_cell g row col r)) = count_color t g
         ∧ (count_color t g' < count_color t g)%nat).
Proof.
  destruct (floodFill_rec_total w h t r (S (count_color t g)) g row col)
    as (g' & Hff & Hle & Hlt); [lia|].
  exists g'. split; [|split; [done|split]].
  - intros extra. eapply floodFill_rec_mono; [done|lia].
  - intros Hstop. rewrite floodFill_rec_stop in Hff by done. by simplify_eq.
  - intros (Hne & Hb & Hg). split; [by apply count_set_cell|auto].
Qed.




End floodFill_claims.

(** ** Bresenham stroke interpolation *)

Section bresenham.
Implicit Types (dx dy sx sy row col err i j : Z) (n : nat)
  (cells : list (Z * Z)).

Lemma bresenham_loop_S {S} (visit : Z → Z → S → S) n
    dx dy sx sy row1 col1 err row col (s : S) :
  bresenham_loop visit (Datatypes.S n) dx dy sx sy row1 col1 err row col s =
    if (row =? row1) && (col =? col1) then Some (visit row col s)
    else bresenham_loop visit n dx dy sx sy row1 col1
           (if 2 * err <? dx
            then (if - dy <? 2 * err then err - dy else err) + dx
            else (if - dy <? 2 * err then err - dy else err))
           (if 2 * err <? dx then row + sy else row)
           (if - dy <? 2 * err then col + sx else col)
           (visit row col s).
Proof. done. Qed.

(** Collecting the visited cells gives the sequence itself. *)
Lemma visit_all_snoc cells : ∀ acc : list (Z * Z),
  visit_all (λ r c acc, acc ++ [(r, c)]) cells acc = acc ++ cells.
Proof.
  induction cells as [|[a b] cells IH]; intros acc; simpl.
  - by rewrite app_nil_r.
  - unfold visit_all in *. simpl. rewrite IH. by rewrite <- app_assoc.
Qed.

Lemma line_inv_end dx dy i j :
  0 ≤ dx → 0 ≤ dy → line_inv dx dy 0 i j → i = dx ∧ j = dy.
Proof.
  intros Hdx Hdy
    [(-> & -> & -> & -> & _)|[(Hle & Hpos & -> & Hb)|(Hlt & -> & Hb)]];
    [done| |].
  - split; [lia|]. rewrite Z.sub_0_r in Hb.
    assert (dx * (2 * (dy - j) + 1) > 0) by lia.
    assert (dx * (2 * (dy - j) - 2) < 0) by lia.
    nia.
  - split; [|lia]. rewrite Z.sub_0_r in Hb.
    assert (dy * (2 * (i - dx) + 2) > 0) by lia.
    assert (dy * (2 * (i - dx) - 1) < 0) by lia.
    nia.
Qed.

Lemma bresenham_loop_run dx dy sx sy row0 col0 :
  0 ≤ dx → 0 ≤ dy → sx = 1 ∨ sx = -1 → sy = 1 ∨ sy = -1 →
  ∀ n i j err row col,
    line_inv dx dy n i j →
    err = dx - dy - (i * dy - j * dx) →
    row = row0 + sy * j → col = col0 + sx * i →
    ∃ cells,
      length cells = S n
      ∧ head cells = Some (row, col)
      ∧ last cells = Some (row0 + sy * dy, col0 + sx * dx)
      ∧ chain one_step cells
      ∧ ∀ S (visit : Z → Z → S → S) (s : S),
          bresenham_loop visit (Datatypes.S n) dx dy sx sy
            (row0 + sy * dy) (col0 + sx * dx) err row col s
          = Some (visit_all visit cells s).
Proof.
  intros Hdx Hdy Hsx Hsy.
  induction n as [|n IH]; intros i j err row col Hinv Herr Hrow Hcol.
  - destruct (line_inv_end dx dy i j Hdx Hdy Hinv) as [-> ->].
    exists [(row, col)]. subst row col. repeat split.
    intros S visit s. rewrite bresenham_loop_S.
    by rewrite !Z.eqb_refl.
  - assert (∃ i' j',
        (if - dy <? 2 * err then i' = i + 1 else i' = i)
        ∧ (if 2 * err <? dx then j' = j + 1 else j' = j)
        ∧ line_inv dx dy n i' j'
        ∧ ((row =? row0 + sy * dy) && (col =? col0 + sx * dx) = false))
      as (i' & j' & Hi' & Hj' & Hinv' & Hcont).
    { destruct Hinv
        as [(_ & _ & _ & _ & ?)|[(Hle & Hpos & Hi & Hb)|(Hlt & Hj & Hb)]];
        [done| |].
      - exists (i + 1).
        destruct (Z.ltb_spec (- dy) (2 * err)); [|lia].
        destruct (Z.ltb_spec (2 * err) dx).
        + exists (j + 1). repeat split; try done.
          * right; left. repeat split; lia.
          * apply andb_false_iff. right. apply Z.eqb_neq.
            destruct Hsx; subst; lia.
        + exists j. repeat split; try done.
          * right; left. repeat split; lia.
          * apply andb_false_iff. right. apply Z.eqb_neq.
            destruct Hsx; subst; lia.
      - exists (if - dy <? 2 * err then i + 1 else i), (j + 1).
        destruct (Z.ltb_spec (2 * err) dx); [|lia].
        destruct (Z.ltb_spec (- dy) (2 * err)).
        + repeat split; try done.
          * right; right. repeat split; lia.
          * apply andb_false_iff. left. apply Z.eqb_neq.
            destruct Hsy; subst; lia.
        + repeat split; try done.
          * right; right. repeat split; lia.
          * apply andb_false_iff. left. apply Z.eqb_neq.
            destruct Hsy; subst; lia. }
    destruct (IH i' j'
                (if 2 * err <? dx
                 then (if - dy <? 2 * err then err - dy else err) + dx
                 else (if - dy <? 2 * err then err - dy else err))
                (if 2 * err <? dx then row + sy else row)
                (if - dy <? 2 * err then col + sx else col))
      as (cells & Hlen & Hhd & Hlast & Hchain & Hrun); [done| | | |].
    { destruct (- dy <? 2 * err), (2 * err <? dx); subst; lia. }
    { destruct (2 * err <? dx); subst; lia. }
    { destruct (- dy <? 2 * err); subst; lia. }
    exists ((row, col) :: cells). split; [simpl; by rewrite Hlen|].
    split; [done|]. split.
    { destruct cells; [done|]. by rewrite last_cons_cons. }
    split.
    { destruct cells as [|q cells]; [done|]. simpl in Hhd.
      injection Hhd as ->.
      split; [|done]. unfold one_step. simpl.
      destruct (- dy <? 2 * err), (2 * err <? dx);
        destruct Hsx, Hsy; subst; lia. }
    intros S visit s. rewrite bresenham_loop_S, Hcont. apply Hrun.
Qed.

(** A larger iteration budget does not change a result. *)
Lemma bresenham_loop_mono {S} (visit : Z → Z → S → S) n : ∀ m
    dx dy sx sy row1 col1 err row col (s s' : S),
  bresenham_loop visit n dx dy sx sy row1 col1 err row col s = Some s' →
  (n ≤ m)%nat →
  bresenham_loop visit m dx dy sx sy row1 col1 err row col s = Some s'.
Proof.
  induction n as [|n IH]; intros m dx dy sx sy row1 col1 err row col s s'
    Hrun Hle; [done|].
  destruct m as [|m]; [lia|].
  rewrite bresenham_loop_S in *.
  destruct ((row =? row1) && (col =? col1)); [done|].
  apply IH; [done|lia].
Qed.

(** The stroke interpolator from any cell to any cell. *)
Lemma bresenham_run row0 col0 row1 col1 :
  ∃ cells,
    length cells = line_fuel row0 col0 row1 col1
    ∧ head cells = Some (row0, col0)
    ∧ last cells = Some (row1, col1)
    ∧ chain one_step cells
    ∧ ∀ S (visit : Z → Z → S → S) (s : S),
        bresenham visit (line_fuel row0 col0 row1 col1)
          row0 col0 row1 col1 s
        = Some (visit_all visit cells s).
Proof.
  set (dx := Z.abs (col1 - col0)). set (dy := Z.abs (row1 - row0)).
  set (sx := if col0 <? col1 then 1 else -1).
  set (sy := if row0 <? row1 then 1 else -1).
  assert (col1 = col0 + sx * dx) as Hc.
  { unfold sx, dx. destruct (Z.ltb_spec col0 col1); lia. }
  assert (row1 = row0 + sy * dy) as Hr.
  { unfold sy, dy. destruct (Z.ltb_spec row0 row1); lia. }
  destruct (bresenham_loop_run dx dy sx sy row0 col0) with
    (n := Z.to_nat (Z.max dx dy)) (i := 0) (j := 0)
    (err := dx - dy) (row := row0) (col := col0)
    as (cells & Hlen & Hhd & Hlast & Hchain & Hrun);
    try lia.
  { unfold sx. destruct (col0 <? col1); auto. }
  { unfold sy. destruct (row0 <? row1); auto. }
  { unfold line_inv.
    destruct (decide (dx = 0 ∧ dy = 0)) as [[E1 E2]|Hn].
    - left. rewrite E1, E2. done.
    - right. destruct (decide (dy ≤ dx)); [left|right]; lia. }
  exists cells. unfold line_fuel, bresenham. fold dx dy sx sy.
  rewrite <- Hc, <- Hr in *. done.
Qed.

(** C4. Between any two cells the interpolator visits a sequence of
    cells, the one [drawLine] stamps in order, that starts at the
    first cell and ends at the second, moves by at most one row and
    at most one column between consecutive cells, and has
    [max(|col1 - col0|, |row1 - row0|) + 1] cells; the loop stops
    there whatever larger number of iterations it is allowed.  From
    (0,0) to (5,5) it is the diagonal, from (0,0) to (0,5) the row
    segment. *)
Theorem drawLine_cells :
  (∀ row0 col0 row1 col1, ∃ cells,
     (∀ extra : nat,
        line_cells (line_fuel row0 col0 row1 col1 + extra)
          row0 col0 row1 col1 = Some cells)
     ∧ (∀ st, drawLine row0 col0 row1 col1 st
              = visit_all drawPixel cells st)
     ∧ head cells = Some (row0, col0)
     ∧ last cells = Some (row1, col1)
     ∧ chain one_step cells
     ∧ Z.of_nat (length cells)
       = Z.max (Z.abs (col1 - col0)) (Z.abs (row1 - row0)) + 1)
  ∧ line_cells (line_fuel 0 0 5 5) 0 0 5 5
    = Some [(0, 0); (1, 1); (2, 2); (3, 3); (4, 4); (5, 5)]
  ∧ line_cells (line_fuel 0 0 0 5) 0 0 0 5
    = Some [(0, 0); (0, 1); (0, 2); (0, 3); (0, 4); (0, 5)].
Proof.
  split; [|split; reflexivity].
  intros row0 col0 row1 col1.
  destruct (bresenham_run row0 col0 row1 col1)
    as (cells & Hlen & Hhd & Hlast & Hchain & Hrun).
  exists cells. split; [|split; [|repeat split; try done]].
  - intros extra. unfold line_cells, bresenham.
    eapply bresenham_loop_mono; [|apply Nat.le_add_r].
    fold (bresenham (λ r c acc, acc ++ [(r, c)])
            (line_fuel row0 col0 row1 col1) row0 col0 row1 col1 []).
    rewrite Hrun. by rewrite visit_all_snoc.
  - intros st. unfold drawLine. by rewrite Hrun.
  - rewrite Hlen. unfold line_fuel. lia.
Qed.
End bresenham.

(** ** Brush stamp *)

Section stamp.
Implicit Types (g : list (list string)) (w h b row col p q : Z)
  (color : string) (cells : list (Z * Z)).

Lemma in_bounds_spec w h p q :
  in_bounds w h p q = true ↔ (0 ≤ p < h ∧ 0 ≤ q < w).
Proof.
  unfold in_bounds. rewrite !andb_true_iff.
  rewrite !Z.leb_le, !Z.ltb_lt. lia.
Qed.

Lemma in_bounds_true w h p q :
  0 ≤ p < h → 0 ≤ q < w → in_bounds w h p q = true.
Proof. intros. by apply in_bounds_spec. Qed.

Lemma in_bounds_false w h p q :
  p < 0 ∨ h ≤ p ∨ q < 0 ∨ w ≤ q → in_bounds w h p q = false.
Proof.
  intros Hout. destruct (in_bounds w h p q) eqn:E; [|done].
  apply in_bounds_spec in E. lia.
Qed.

Lemma foldl_ext_all {A B} (f f' : A → B → A) (l : list B) :
  (∀ a x, f a x = f' a x) → ∀ a, foldl f a l = foldl f' a l.
Proof.
  intros Hf. induction l as [|x l IH]; intros a; simpl; [done|].
  by rewrite Hf, IH.
Qed.

Lemma visit_all_app {S} (visit : Z → Z → S → S) cells1 cells2 (s : S) :
  visit_all visit (cells1 ++ cells2) s
  = visit_all visit cells2 (visit_all visit cells1 s).
Proof. apply foldl_app. Qed.

Lemma visit_all_bind {S A} (visit : Z → Z → S → S)
    (k : A → list (Z * Z)) (l : list A) : ∀ s : S,
  visit_all visit (l ≫= k) s = foldl (λ s x, visit_all visit (k x) s) s l.
Proof.
  induction l as [|x l IH]; intros s; [done|].
  rewrite bind_cons, visit_all_app, IH. done.
Qed.

(** The nested loops write [color] along [stamp_cells]. *)
Lemma stamp_paint w h b row col color g :
  stamp w h b row col color g
  = paint color (stamp_cells w h b row col) g.
Proof.
  unfold stamp, paint, stamp_cells. rewrite visit_all_bind.
  apply foldl_ext_all. intros g' r. rewrite visit_all_bind.
  apply foldl_ext_all. intros g'' c. unfold stamp_cell.
  by destruct (in_bounds w h (row + r) (col + c)).
Qed.

Lemma elem_of_stamp_cells w h b row col p q :
  (p, q) ∈ stamp_cells w h b row col
  ↔ in_bounds w h p q = true ∧ in_brush b row col p q.
Proof.
  unfold stamp_cells, brush_offsets, in_brush.
  rewrite list_elem_of_bind. split.
  - intros (r & Hin & Hr). apply list_elem_of_bind in Hin as (c & Hin & Hc).
    apply elem_of_seqZ in Hr, Hc.
    destruct (in_bounds w h (row + r) (col + c)) eqn:E.
    + apply list_elem_of_singleton in Hin. simplify_eq. split; [done|lia].
    + by apply elem_of_nil in Hin.
  - intros (Hb & Hr & Hc). exists (p - row). split.
    + apply list_elem_of_bind. exists (q - col). split.
      * replace (row + (p - row)) with p by lia.
        replace (col + (q - col)) with q by lia.
        rewrite Hb. by apply list_elem_of_singleton.
      * apply elem_of_seqZ. lia.
    + apply elem_of_seqZ. lia.
Qed.

Lemma paint_wf w h color cells : ∀ g,
  wf_grid w h g → wf_grid w h (paint color cells g).
Proof.
  induction cells as [|c cells IH]; intros g Hwf; [done|].
  apply IH. by apply set_cell_wf.
Qed.

(** Painting cells of the grid: those cells get the colour, no other
    cell changes. *)
Lemma get_cell_paint w h color cells : ∀ g p q,
  wf_grid w h g →
  Forall (λ c, in_bounds w h c.1 c.2 = true) cells →
  get_cell (paint color cells g) p q
  = if decide ((p, q) ∈ cells) then Some color else get_cell g p q.
Proof.
  induction cells as [|[cr cc] cells IH]; intros g p q Hwf Hall.
  - rewrite decide_False; [done|]. apply not_elem_of_nil.
  - apply Forall_cons in Hall as [Hc Hall]. simpl in Hc.
    change (paint color ((cr, cc) :: cells) g)
      with (paint color cells (set_cell g cr cc color)).
    rewrite IH by auto using set_cell_wf.
    destruct (decide ((p, q) ∈ cells)) as [Hin|Hin].
    + rewrite decide_True; [done|]. by right.
    + destruct (decide ((p, q) = (cr, cc))) as [E|E].
      * rewrite decide_True by (rewrite E; left). simplify_eq.
        destruct (wf_get_cell w h g cr cc Hwf Hc) as [v Hv].
        by eapply get_set_cell_eq.
      * rewrite decide_False.
        -- by apply get_set_cell_ne.
        -- intros [?|?]%elem_of_cons; done.
Qed.

Lemma stamp_cells_in_bounds w h b row col :
  Forall (λ c, in_bounds w h c.1 c.2 = true) (stamp_cells w h b row col).
Proof.
  apply Forall_forall. intros [p q] Hin.
  by apply elem_of_stamp_cells in Hin as [? _].
Qed.

(** What [drawPixel] does to the grid with a brush tool selected. *)
Lemma drawPixel_brush row col st :
  in_bounds (gridWidth st) (gridHeight st) row col = true →
  is_brush_tool (currentTool st) = true →
  grid (drawPixel row col st)
  = paint (if bool_decide (currentTool st = pencil)
           then currentColor st else WHITE)
      (stamp_cells (gridWidth st) (gridHeight st) (brushSize st) row col)
      (grid st).
Proof.
  intros Hb Ht. unfold drawPixel. rewrite Hb. simpl.
  destruct (currentTool st); try done; simpl; by rewrite stamp_paint.
Qed.

Local Ltac eval_bounds :=
  repeat match goal with
    | |- context [in_bounds ?w ?h ?p ?q] =>
        first [ rewrite (in_bounds_true w h p q) by lia
              | rewrite (in_bounds_false w h p q) by lia ]
    end.

(** C5. With the pencil or the eraser selected and a brush size [b]
    in 1..5, one stamp at a cell of the grid writes the tool's colour
    into exactly the in-bounds cells [(row + r, col + c)] with [r],
    [c] in [[-floor(b/2), b - floor(b/2))] and leaves every other
    cell as it was.  A 3×3 brush at (5,5) writes the nine cells
    (4..6, 4..6), at the corner (0,0) only the four in-bounds cells;
    a 2×2 brush at (5,5) writes rows 4..5 and columns 4..5. *)
Theorem stamp_exact st row col :
  1 ≤ brushSize st ≤ 5 →
  wf_grid (gridWidth st) (gridHeight st) (grid st) →
  in_bounds (gridWidth st) (gridHeight st) row col = true →
  is_brush_tool (currentTool st) = true →
  let w := gridWidth st in
  let h := gridHeight st in
  let color := if bool_decide (currentTool st = pencil)
               then currentColor st else WHITE in
  let g' := grid (drawPixel row col st) in
  g' = paint color (stamp_cells w h (brushSize st) row col) (grid st)
  ∧ wf_grid w h g'
  ∧ (∀ p q, in_bounds w h p q = true →
            in_brush (brushSize st) row col p q →
            get_cell g' p q = Some color)
  ∧ (∀ p q, ¬ (in_bounds w h p q = true
               ∧ in_brush (brushSize st) row col p q) →
            get_cell g' p q = get_cell (grid st) p q)
  ∧ (∀ w h, 7 ≤ w → 7 ≤ h →
       stamp_cells w h 3 5 5
       = [(4, 4); (4, 5); (4, 6); (5, 4); (5, 5); (5, 6);
          (6, 4); (6, 5); (6, 6)])
  ∧ (∀ w h, 2 ≤ w → 2 ≤ h →
       stamp_cells w h 3 0 0 = [(0, 0); (0, 1); (1, 0); (1, 1)])
  ∧ (∀ w h, 6 ≤ w → 6 ≤ h →
       stamp_cells w h 2 5 5 = [(4, 4); (4, 5); (5, 4); (5, 5)]).
Proof.
  intros Hbrush Hwf Hb Ht w h color g'.
  assert (g' = paint color (stamp_cells w h (brushSize st) row col)
                 (grid st)) as Hg' by by apply drawPixel_brush.
  split; [done|]. split; [rewrite Hg'; by apply paint_wf|].
  split; [|split].
  - intros p q Hpq Hin. rewrite Hg'.
    rewrite (get_cell_paint w h) by auto using stamp_cells_in_bounds.
    rewrite decide_True; [done|]. by apply elem_of_stamp_cells.
  - intros p q Hout. rewrite Hg'.
    rewrite (get_cell_paint w h) by auto using stamp_cells_in_bounds.
    rewrite decide_False; [done|]. by rewrite elem_of_stamp_cells.
  - repeat split; intros w' h' Hw' Hh'; unfold stamp_cells, brush_offsets.
    + change (seqZ (- (3 / 2)) 3) with [-1; 0; 1]. simpl.
      eval_bounds. done.
    + change (seqZ (- (3 / 2)) 3) with [-1; 0; 1]. simpl.
      eval_bounds. done.
    + change (seqZ (- (2 / 2)) 2) with [-1; 0]. simpl.
      eval_bounds. done.
Qed.

Lemma stamp_exact_witness :
  let st := set_brushSize 3
              (initializeGrid
                 (set_gridHeight 8 (set_gridWidth 8 mount_state))) in
  get_cell (grid (drawPixel 0 0 st)) 1 1 = Some BLACK
  ∧ get_cell (grid (drawPixel 0 0 st)) 2 2 = Some WHITE.
Proof.
  intros st.
  assert (1 ≤ brushSize st ≤ 5) as Hbrush by (simpl; lia).
  assert (wf_grid (gridWidth st) (gridHeight st) (grid st)) as Hwf
    by apply create_wf.
  destruct (stamp_exact st 0 0 Hbrush Hwf eq_refl eq_refl)
    as (_ & _ & Hin & Hout & _).
  split.
  - apply (Hin 1 1); [reflexivity|].
    unfold in_brush. change (brushSize st / 2) with 1.
    change (brushSize st) with 3. lia.
  - rewrite (Hout 2 2); [reflexivity|].
    intros [_ Hbr]. unfold in_brush in Hbr.
    change (brushSize st / 2) with 1 in Hbr.
    change (brushSize st) with 3 in Hbr. lia.
Defined.
End stamp.

(** ** Invariants of the editor *)

Section invariants.
Implicit Types (st : State) (g : list (list string)) (row col : Z).

Lemma state_inv_set_grid g st :
  state_inv st → wf_grid (gridWidth st) (gridHeight st) g →
  state_inv (set_grid g st).
Proof. intros [] Hg. by split. Qed.

Lemma state_inv_set_colorHistory l st :
  state_inv st → NoDup l → (length l ≤ 20)%nat →
  state_inv (set_colorHistory l st).
Proof. intros [] ??. by split. Qed.

Lemma state_inv_addToColorHistory color st :
  state_inv st → state_inv (addToColorHistory color st).
Proof.
  intros Hinv. pose proof (inv_colors_nodup _ Hinv).
  apply state_inv_set_colorHistory; [done| |].
  - by apply (addToColorHistory_NoDup color st).
  - apply (addToColorHistory_length color st).
Qed.

Lemma saveState_fields st :
  gridWidth (saveState st) = gridWidth st
  ∧ gridHeight (saveState st) = gridHeight st
  ∧ grid (saveState st) = grid st
  ∧ colorHistory (saveState st) = colorHistory st
  ∧ currentTool (saveState st) = currentTool st
  ∧ currentColor (saveState st) = currentColor st
  ∧ isDrawing (saveState st) = isDrawing st.
Proof. unfold saveState. by destruct (_ <? _). Qed.

(** Recording with the cursor inside the stack. *)
Lemma saveState_cursor st :
  cursor_ok st → Z.of_nat (length (history st)) ≤ MAX_HISTORY →
  let h1 := take (Z.to_nat (historyIndex st + 1)) (history st) in
  history (saveState st) = drop (length h1 - 49) (h1 ++ [grid st])
  ∧ historyIndex (saveState st)
    = Z.of_nat (length (history (saveState st))) - 1.
Proof.
  intros [Hlo Hhi] Hcap h1. unfold MAX_HISTORY in *.
  assert (length h1 = Z.to_nat (historyIndex st + 1)) as Hl1.
  { unfold h1. rewrite length_take. lia. }
  destruct (decide (length h1 = 50%nat)) as [E|E].
  - rewrite (saveState_evict st ltac:(lia) h1); [|done|unfold MAX_HISTORY; lia].
    simpl. rewrite E. simpl. split; [by destruct h1|].
    rewrite length_tail, length_app, E. simpl. lia.
  - rewrite (saveState_append st ltac:(lia) h1);
      [|done|unfold MAX_HISTORY; lia].
    simpl. replace (length h1 - 49)%nat with 0%nat by lia.
    split; [done|]. rewrite length_app. simpl. lia.
Qed.

Lemma state_inv_saveState st : state_inv st → state_inv (saveState st).
Proof.
  intros Hinv. pose proof Hinv as [Hd Hg He Hcap Hcur Hnd Hlen].
  destruct (saveState_cursor st Hcur Hcap) as [Hh Hi].
  destruct (saveState_fields st) as (Ew & Eh & Eg & Ec & _).
  split; rewrite ?Ew, ?Eh, ?Eg, ?Ec; try done.
  - rewrite Hh. apply Forall_drop, Forall_app. split.
    + by apply Forall_take.
    + by apply Forall_singleton.
  - by apply saveState_length.
  - unfold cursor_ok. rewrite Hi.
    assert (0 < length (history (saveState st)))%nat; [|lia].
    rewrite Hh, length_drop, length_app. simpl.
    destruct Hcur. unfold MAX_HISTORY in *.
    rewrite length_take. lia.
Qed.

Lemma state_inv_initializeGrid st :
  0 ≤ gridWidth st → 0 ≤ gridHeight st →
  NoDup (colorHistory st) → (length (colorHistory st) ≤ 20)%nat →
  state_inv (initializeGrid st).
Proof.
  intros Hw Hh Hnd Hlen. split; simpl; try done.
  - apply create_wf.
  - apply Forall_singleton, create_wf.
Qed.

Lemma state_inv_undo st : state_inv st → state_inv (undo st).
Proof.
  intros Hinv. pose proof Hinv as [Hd Hg He Hcap [Hlo Hhi] Hnd Hlen].
  unfold undo. destruct (Z.ltb_spec 0 (historyIndex st)); [|done].
  simpl. destruct (history st !! _) as [g|] eqn:E.
  - split; simpl; try done; [|unfold cursor_ok; simpl; lia].
    rewrite Forall_lookup in He. eauto.
  - split; simpl; try done. unfold cursor_ok; simpl; lia.
Qed.

Lemma state_inv_redo st : state_inv st → state_inv (redo st).
Proof.
  intros Hinv. pose proof Hinv as [Hd Hg He Hcap [Hlo Hhi] Hnd Hlen].
  unfold redo.
  destruct (Z.ltb_spec (historyIndex st)
              (Z.of_nat (length (history st)) - 1)); [|done].
  simpl. destruct (history st !! _) as [g|] eqn:E.
  - split; simpl; try done; [|unfold cursor_ok; simpl; lia].
    rewrite Forall_lookup in He. eauto.
  - split; simpl; try done. unfold cursor_ok; simpl; lia.
Qed.

Lemma state_inv_floodFill row col t r st :
  state_inv st → state_inv (floodFill row col t r st).
Proof.
  intros Hinv. destruct (floodFill_total row col t r st) as (g' & Hff & ->).
  apply state_inv_set_grid; [done|].
  eapply floodFill_rec_wf; [done|]. apply (inv_grid _ Hinv).
Qed.

Lemma state_inv_drawPixel row col st :
  state_inv st → state_inv (drawPixel row col st).
Proof.
  intros Hinv. unfold drawPixel.
  destruct (in_bounds _ _ row col); simpl; [|done].
  destruct (currentTool st).
  - apply state_inv_set_grid; [by apply state_inv_addToColorHistory|].
    simpl. rewrite stamp_paint. apply paint_wf, (inv_grid _ Hinv).
  - apply state_inv_set_grid; [done|].
    rewrite stamp_paint. apply paint_wf, (inv_grid _ Hinv).
  - destruct (get_cell (grid st) row col); [|done].
    by apply state_inv_saveState, state_inv_addToColorHistory,
      state_inv_floodFill.
  - destruct (get_cell (grid st) row col); [|done].
    destruct Hinv. by split.
Qed.

Lemma visit_all_preserves {S} (P : S → Prop) (visit : Z → Z → S → S)
    (cells : list (Z * Z)) :
  (∀ row col s, P s → P (visit row col s)) →
  ∀ s, P s → P (visit_all visit cells s).
Proof.
  intros Hv. induction cells as [|[a b] cells IH]; intros s Hs; [done|].
  apply IH, Hv, Hs.
Qed.

Lemma drawLine_visit_all row0 col0 row1 col1 :
  ∃ cells, ∀ st,
    drawLine row0 col0 row1 col1 st = visit_all drawPixel cells st.
Proof.
  destruct (bresenham_run row0 col0 row1 col1)
    as (cells & _ & _ & _ & _ & Hrun).
  exists cells. intros st. unfold drawLine. by rewrite Hrun.
Qed.

Lemma state_inv_drawLine row0 col0 row1 col1 st :
  state_inv st → state_inv (drawLine row0 col0 row1 col1 st).
Proof.
  intros Hinv.
  destruct (drawLine_visit_all row0 col0 row1 col1) as (cells & ->).
  apply visit_all_preserves; [|done].
  intros. by apply state_inv_drawPixel.
Qed.

Lemma state_inv_flags st b pos hov :
  state_inv st →
  state_inv (set_lastDrawnPos pos (set_hoveredCell hov (set_isDrawing b st))).
Proof. intros []. by split. Qed.

Lemma state_inv_set_isDrawing b st :
  state_inv st → state_inv (set_isDrawing b st).
Proof. intros []. by split. Qed.

Lemma state_inv_set_lastDrawnPos pos st :
  state_inv st → state_inv (set_lastDrawnPos pos st).
Proof. intros []. by split. Qed.

Lemma state_inv_set_hoveredCell hov st :
  state_inv st → state_inv (set_hoveredCell hov st).
Proof. intros []. by split. Qed.

Lemma state_inv_stopDrawing st : state_inv st → state_inv (stopDrawing st).
Proof.
  intros Hinv. unfold stopDrawing.
  apply state_inv_set_lastDrawnPos, state_inv_set_isDrawing.
  destruct (isDrawing st); [by apply state_inv_saveState|done].
Qed.

Lemma state_inv_clearGrid st : state_inv st → state_inv (clearGrid st).
Proof.
  intros Hinv. apply state_inv_saveState, state_inv_set_grid; [done|].
  pose proof (inv_grid _ Hinv) as Hg. revert Hg.
  generalize (grid st). induction (seqZ 0 (gridHeight st)) as [|r rows IH];
    intros g Hg; [done|].
  simpl. apply IH. clear IH. revert g Hg.
  induction (seqZ 0 (gridWidth st)) as [|c cols IH]; intros g Hg; [done|].
  simpl. apply IH. by apply set_cell_wf.
Qed.

Lemma state_inv_handle ev st : state_inv st → state_inv (handle ev st).
Proof.
  intros Hinv. destruct ev; simpl.
  - destruct coords as [[row col]|]; [|done].
    by apply state_inv_drawPixel, state_inv_flags.
  - unfold onCanvasMouseMove. destruct (buttons =? 1).
    + set (st1 := if negb (isDrawing st) && is_brush_tool (currentTool st)
                  then set_isDrawing true st else st).
      assert (state_inv st1) as Hinv1.
      { unfold st1. destruct (_ && _); [|done].
        by apply state_inv_set_isDrawing. }
      clearbody st1.
      destruct coords as [[row col]|]; [|done].
      destruct (isDrawing st1 && is_brush_tool (currentTool st1)); [|done].
      apply state_inv_set_lastDrawnPos.
      destruct (lastDrawnPos st1) as [[lrow lcol]|].
      * destruct (negb (lrow =? row) || negb (lcol =? col));
          [by apply state_inv_drawLine|done].
      * by apply state_inv_drawPixel.
    + destruct coords; [by apply state_inv_set_hoveredCell|done].
  - by apply state_inv_stopDrawing, state_inv_stopDrawing.
  - by apply state_inv_stopDrawing.
  - unfold onCanvasMouseLeave.
    destruct (hoveredCell st); [by apply state_inv_set_hoveredCell|done].
  - destruct Hinv. by split.
  - destruct Hinv. by split.
  - destruct Hinv. by split.
  - by apply state_inv_undo.
  - by apply state_inv_redo.
  - by apply state_inv_clearGrid.
  - unfold resizeGrid. destruct value as [newSize|]; [|done].
    destruct (Z.ltb_spec newSize 8), (Z.ltb_spec 64 newSize); simpl;
      try done.
    destruct Hinv. apply state_inv_initializeGrid; simpl; try done; lia.
Qed.

Lemma state_inv_initial : state_inv initial_state.
Proof.
  apply state_inv_initializeGrid; simpl; try lia.
  by apply (bool_decide_unpack _).
Qed.

(** Every state the editor can reach satisfies the invariant. *)
Lemma reachable_inv st : reachable st → state_inv st.
Proof.
  induction 1 as [|st ev _ IH];
    [apply state_inv_initial|by apply state_inv_handle].
Qed.
End invariants.

Section history_claims.
Implicit Types (st : State) (gs : list (list (list string))).

Lemma at_entry_self st i :
  historyIndex st = Z.of_nat i → at_entry i (grid st) st = st.
Proof. destruct st. simpl. intros ->. done. Qed.

Lemma record_all_fresh st gs :
  (length gs < 50)%nat →
  let blank := create (gridWidth st) (gridHeight st) WHITE in
  let st1 := record_all gs (initializeGrid st) in
  history st1 = blank :: gs
  ∧ historyIndex st1 = Z.of_nat (length gs)
  ∧ grid st1 = default blank (last gs).
Proof.
  intros Hk blank st1.
  destruct (record_all_at_end gs (initializeGrid st)) as (Hh & Hi & Hg);
    [done|done|].
  fold st1 in Hh, Hi, Hg. simpl in Hh. fold blank in Hh.
  replace (length gs - 49)%nat with 0%nat in Hh by lia. simpl in Hh.
  split; [done|]. split; [rewrite Hi, Hh; simpl; lia|].
  rewrite Hg. reflexivity.
Qed.

(** C6. After [k < 50] recorded edits on a freshly initialised history,
    [k] calls of [undo] bring back the blank grid and [k] calls of
    [redo] after that bring back the state reached by the edits (its
    grid is the last edit); [undo] with the cursor on the oldest entry
    and [redo] with the cursor on the newest entry change nothing. *)
Theorem undo_redo_roundtrip st gs :
  (length gs < 50)%nat →
  let k := length gs in
  let blank := create (gridWidth st) (gridHeight st) WHITE in
  let st1 := record_all gs (initializeGrid st) in
  let st2 := Nat.iter k undo st1 in
  let st3 := Nat.iter k redo st2 in
  grid st1 = default blank (last gs)
  ∧ grid st2 = blank
  ∧ st3 = st1
  ∧ (∀ s, historyIndex s = 0 → undo s = s)
  ∧ (∀ s, historyIndex s = Z.of_nat (length (history s)) - 1 → redo s = s).
Proof.
  intros Hk k blank st1 st2 st3.
  destruct (record_all_fresh st gs Hk) as (Hh & Hi & Hg).
  fold blank st1 in Hh, Hi, Hg.
  split; [done|].
  assert (∀ s, historyIndex s = 0 → undo s = s) as Hu.
  { intros s Hs. apply undo_at_oldest. lia. }
  assert (∀ s, historyIndex s = Z.of_nat (length (history s)) - 1 →
               redo s = s) as Hr.
  { intros s Hs. apply redo_at_newest. lia. }
  destruct (decide (k = 0%nat)) as [Hk0|Hk0].
  - unfold st3, st2. rewrite Hk0. simpl.
    destruct gs; [|done]. simpl in Hg. done.
  - assert (st2 = at_entry 0 blank st1) as Hst2.
    { unfold st2. rewrite (undo_iter k st1 k blank); try done; try lia.
      + by rewrite Nat.sub_diag.
      + rewrite Hh. simpl. lia.
      + by rewrite Nat.sub_diag, Hh. }
    split; [by rewrite Hst2|]. split; [|done].
    unfold st3. rewrite (redo_iter k st2 0 (grid st1)); try lia.
    + rewrite Hst2, at_entry_at_entry. simpl. by apply at_entry_self.
    + by rewrite Hst2.
    + rewrite Hst2. simpl. rewrite Hh, Hg.
      change (blank :: gs) with ([blank] ++ gs).
      rewrite lookup_app_r by (simpl; lia). simpl.
      rewrite last_lookup. fold k.
      replace (k - 1)%nat with (pred k) by lia.
      destruct (gs !! pred k) eqn:E; [done|].
      apply lookup_ge_None in E. lia.
Qed.

Lemma undo_redo_roundtrip_witness :
  let st := set_gridHeight 2 (set_gridWidth 2 mount_state) in
  let gs := [[["#000000"; WHITE]; [WHITE; WHITE]];
             [["#000000"; WHITE]; [WHITE; "#FF0000"]]] in
  grid (Nat.iter 2 undo (record_all gs (initializeGrid st)))
  = [[WHITE; WHITE]; [WHITE; WHITE]]
  ∧ Nat.iter 2 redo (Nat.iter 2 undo (record_all gs (initializeGrid st)))
    = record_all gs (initializeGrid st).
Proof.
  intros st gs.
  assert (length gs < 50)%nat as Hk by (simpl; lia).
  destruct (undo_redo_roundtrip st gs Hk) as (_ & H2 & H3 & _).
  split; [exact H2|exact H3].
Defined.

(** C7. In every state the editor can reach the stack has at most 50
    entries and the cursor points into it.  Recording never lets the
    stack grow beyond 50 entries; at capacity the oldest entry goes
    and the cursor stays; after 60 recorded edits, on a fresh or an
    empty stack, the stack holds exactly the last 50 of them (the 10
    oldest are gone) with the cursor on the most recent one. *)
Theorem history_capacity :
  (∀ st, reachable st →
         Z.of_nat (length (history st)) ≤ MAX_HISTORY ∧ cursor_ok st)
  ∧ (∀ st, Z.of_nat (length (history st)) ≤ MAX_HISTORY →
         Z.of_nat (length (history (saveState st))) ≤ MAX_HISTORY)
  ∧ (∀ st, Z.of_nat (length (history st)) = MAX_HISTORY →
           historyIndex st = MAX_HISTORY - 1 →
           history (saveState st) = drop 1 (history st) ++ [grid st]
           ∧ historyIndex (saveState st) = historyIndex st)
  ∧ (∀ st gs, length gs = 60%nat →
       ∀ st0, st0 = initializeGrid st
              ∨ st0 = set_historyIndex (-1) (set_history [] st) →
       let st' := record_all gs st0 in
       history st' = drop 10 gs
       ∧ length (history st') = 50%nat
       ∧ historyIndex st' = 49
       ∧ history st' !! 49%nat = last gs
       ∧ Some (grid st') = last gs).
Proof.
  split; [intros st Hst; by apply reachable_inv in Hst as []|].
  split; [exact saveState_length|]. split.
  - intros st Hlen Hi. unfold MAX_HISTORY in *.
    rewrite (saveState_evict st ltac:(lia) (history st)).
    + simpl. split; [|done]. destruct (history st); [done|].
      simpl. by rewrite drop_0.
    + rewrite Hi. symmetry. apply take_ge. lia.
    + unfold MAX_HISTORY. lia.
  - intros st gs Hlen st0 Hst0 st'.
    assert (history st' = drop 10 gs
            ∧ historyIndex st' = Z.of_nat (length (history st')) - 1
            ∧ grid st' = default (grid st0) (last gs)) as (Hh & Hi & Hg).
    { destruct Hst0 as [-> | ->].
      - destruct (record_all_at_end gs (initializeGrid st)) as (Hh & Hi & Hg);
          [done|done|].
        split; [|done]. unfold st'. rewrite Hh. simpl. by rewrite Hlen.
      - destruct (record_all_at_end gs
                    (set_historyIndex (-1) (set_history [] st)))
          as (Hh & Hi & Hg); [done|done|].
        split; [|done]. unfold st'. rewrite Hh. simpl. by rewrite Hlen. }
    assert (length (history st') = 50%nat) as Hl.
    { rewrite Hh, length_drop. lia. }
    split; [done|]. split; [done|]. split; [lia|].
    assert (is_Some (last gs)) as [g El].
    { rewrite last_lookup. apply lookup_lt_is_Some_2. lia. }
    rewrite Hg, El. simpl. split; [|done].
    rewrite Hh, lookup_drop, <- El, last_lookup. f_equal. lia.
Qed.
End history_claims.

Section colors_claim.
Implicit Types (st : State) (color : string).

(** The colour history as a list of texts.  It starts without a
    repeated text and every [addToColorHistory] keeps it so and at
    most 20 long, with the added text in front: a text already
    present is moved (the length stays), a new text is inserted, and
    on a full list a new text pushes out the last, least recently
    used, entry.  Adding the same text twice is the same as adding
    it once.  In every state the editor can reach no text is
    repeated and there are at most 20. *)
Lemma colorHistory_texts color st :
  NoDup (colorHistory st) →
  let ch := colorHistory st in
  let ch' := colorHistory (addToColorHistory color st) in
  NoDup (colorHistory mount_state)
  ∧ NoDup ch' ∧ (length ch' ≤ 20)%nat ∧ head ch' = Some color
  ∧ (color ∈ ch → (length ch ≤ 20)%nat →
       ch' = color :: filter (λ c, c ≠ color) ch ∧ length ch' = length ch)
  ∧ (color ∉ ch → (length ch < 20)%nat → ch' = color :: ch)
  ∧ (color ∉ ch → length ch = 20%nat →
       ch' = color :: take 19 ch ∧ ch = take 19 ch ++ drop 19 ch
       ∧ length (drop 19 ch) = 1%nat)
  ∧ colorHistory (addToColorHistory color (addToColorHistory color st)) = ch'
  ∧ (∀ s, reachable s →
          NoDup (colorHistory s) ∧ (length (colorHistory s) ≤ 20)%nat).
Proof.
  intros Hnd ch ch'.
  assert (∀ s, reachable s →
            NoDup (colorHistory s) ∧ (length (colorHistory s) ≤ 20)%nat)
    as Hreach.
  { intros s Hs. apply reachable_inv in Hs as []. done. }
  split; [by apply (bool_decide_unpack _)|].
  split; [by apply addToColorHistory_NoDup|].
  split; [apply addToColorHistory_length|].
  split; [done|].
  unfold ch'. rewrite !addToColorHistory_colors. fold ch.
  split; [|split; [|split; [|split; [|done]]]].
  - intros Hin Hlen. pose proof (filter_ne_length color ch Hnd Hin).
    rewrite take_ge by lia. split; [done|]. simpl. lia.
  - intros Hin Hlen. rewrite filter_ne_absent by done.
    f_equal. apply take_ge. lia.
  - intros Hin Hlen. rewrite filter_ne_absent by done.
    split; [done|]. split; [by rewrite take_drop|].
    rewrite length_drop. lia.
  - rewrite filter_cons_False by (intros ?; congruence).
    rewrite filter_ne_absent.
    + by rewrite take_take.
    + intros Hin. apply elem_of_take in Hin as (i & Hin & _).
      apply list_elem_of_lookup_2, list_elem_of_filter in Hin as [Hne _].
      done.
Qed.

(** An entry at position [i] that is not the added text is among
    the first [i + 1] entries the filter keeps. *)
Lemma filter_ne_keeps color (l : list string) (i : nat) (c : string) :
  l !! i = Some c → c ≠ color →
  c ∈ take (S i) (filter (λ x, x ≠ color) l).
Proof.
  revert i. induction l as [|x l IH]; intros i Hi Hne; [done|].
  destruct i as [|i]; simpl in Hi.
  - injection Hi as ->. rewrite filter_cons_True by done. simpl. left.
  - specialize (IH i Hi Hne). destruct (decide (x = color)) as [->|Hx].
    + rewrite filter_cons_False by (intros ?; congruence).
      apply elem_of_take in IH as (j & Hj & Hlt).
      apply elem_of_take. exists j. split; [done|lia].
    + rewrite filter_cons_True by done. simpl. by right.
Qed.

Lemma saveState_colorHistory st :
  colorHistory (saveState st) = colorHistory st.
Proof. unfold saveState. by destruct (_ <? _). Qed.

Lemma stopDrawing_colorHistory st :
  colorHistory (stopDrawing st) = colorHistory st.
Proof.
  unfold stopDrawing. destruct (isDrawing st); simpl; [|done].
  apply saveState_colorHistory.
Qed.

(** A pencil click in [color] on a cell of the grid adds [color] to
    the colour history. *)
Lemma pencil_click_colorHistory st color (row col : Z) :
  in_bounds (gridWidth st) (gridHeight st) row col = true →
  colorHistory
    (run [SelectTool pencil; SelectColor color;
          CanvasMouseDown (Some (row, col)); CanvasMouseUp] st)
  = colorHistory (addToColorHistory color st).
Proof.
  intros Hin. unfold run. cbn [foldl handle].
  rewrite stopDrawing_colorHistory. unfold onCanvasMouseUp.
  rewrite stopDrawing_colorHistory.
  unfold onCanvasMouseDown, startDrawing, drawPixel.
  cbn [gridWidth gridHeight set_lastDrawnPos set_hoveredCell set_isDrawing
       set_currentColor set_currentTool currentTool currentColor].
  rewrite Hin. done.
Qed.

(** C8. The colour history can hold the same colour twice.
    [addToColorHistory] compares hex texts, so two texts of one
    colour (equal channels [rgb], as ["#FFFFFF"] and ["#ffffff"])
    count as different: in a state the editor can reach, let [c] be
    one of the first 19 entries of the colour history and [color]
    another text of the same colour; after [color] is chosen and one
    pencil click made on a cell of the grid, the colour history has
    [color] in front and still holds [c], so the list of its colour
    values has a duplicate, although no text is repeated and the
    length is at most 20. *)
Theorem colorHistory_same_color_twice st (c color : string) (i : nat)
    (v : Z * Z * Z) (row col : Z) :
  reachable st →
  in_bounds (gridWidth st) (gridHeight st) row col = true →
  colorHistory st !! i = Some c → (i < 19)%nat →
  c ≠ color →
  rgb c = Some v → rgb color = Some v →
  let st' := run [SelectTool pencil; SelectColor color;
                  CanvasMouseDown (Some (row, col)); CanvasMouseUp] st in
  reachable st'
  ∧ colorHistory st'
    = color :: take 19 (filter (λ x, x ≠ color) (colorHistory st))
  ∧ NoDup (colorHistory st') ∧ (length (colorHistory st') ≤ 20)%nat
  ∧ color ∈ colorHistory st' ∧ c ∈ colorHistory st'
  ∧ ¬ NoDup (rgb <$> colorHistory st').
Proof.
  intros Hst Hin Hi Hlt Hne Hc Hcolor st'.
  assert (reachable st') as Hst'.
  { unfold st', run. cbn [foldl]. by repeat apply reachable_step. }
  assert (colorHistory st'
          = color :: take 19 (filter (λ x, x ≠ color) (colorHistory st)))
    as Hch.
  { unfold st'. rewrite pencil_click_colorHistory by done.
    apply addToColorHistory_colors. }
  assert (c ∈ take 19 (filter (λ x, x ≠ color) (colorHistory st))) as Hkept.
  { pose proof (filter_ne_keeps color _ i c Hi Hne) as Hk.
    apply elem_of_take in Hk as (j & Hj & Hjlt).
    apply elem_of_take. exists j. split; [done|lia]. }
  split; [done|]. split; [done|].
  apply reachable_inv in Hst' as [_ _ _ _ _ Hnd Hlen].
  split; [done|]. split; [done|].
  rewrite Hch. split; [left|]. split; [by right|].
  rewrite fmap_cons. intros [Hfresh _]%NoDup_cons. apply Hfresh.
  rewrite Hcolor, <- Hc. by apply list_elem_of_fmap_2.
Qed.

Lemma colorHistory_same_color_twice_witness :
  let st' := run [SelectTool pencil; SelectColor "#ffffff";
                  CanvasMouseDown (Some (3, 3)); CanvasMouseUp]
               initial_state in
  colorHistory st' = ["#ffffff"; "#000000"; "#FFFFFF"]
  ∧ rgb "#ffffff" = rgb "#FFFFFF"
  ∧ ¬ NoDup (rgb <$> colorHistory st').
Proof.
  intros st'.
  assert (in_bounds (gridWidth initial_state) (gridHeight initial_state)
            3 3 = true) as Hin by (vm_compute; reflexivity).
  assert (colorHistory initial_state !! 1%nat = Some "#FFFFFF") as Hi
    by (vm_compute; reflexivity).
  assert (rgb "#FFFFFF" = Some (255, 255, 255)) as Hc
    by (vm_compute; reflexivity).
  assert (rgb "#ffffff" = Some (255, 255, 255)) as Hcolor
    by (vm_compute; reflexivity).
  destruct (colorHistory_same_color_twice initial_state "#FFFFFF" "#ffffff"
              1 (255, 255, 255) 3 3 reachable_init Hin Hi
              ltac:(lia) ltac:(discriminate) Hc Hcolor)
    as (_ & Hch & _ & _ & _ & _ & Hdup).
  split; [|split; [by rewrite Hc, Hcolor|exact Hdup]].
  fold st' in Hch. rewrite Hch. vm_compute. reflexivity.
Defined.
End colors_claim.

(** ** Gestures and the history *)

Section gestures.
Implicit Types (st : State) (g : list (list string)) (row col : Z).

Lemma set_grid_self st : set_grid (grid st) st = st.
Proof. by destruct st. Qed.

Lemma saveState_last st : last (history (saveState st)) = Some (grid st).
Proof.
  unfold saveState. set (h1 := js_slice0 _ _).
  destruct (Z.ltb_spec MAX_HISTORY (Z.of_nat (length (h1 ++ [grid st]))))
    as [Hlt|Hle]; simpl; [|apply last_snoc].
  destruct h1 as [|x h1]; [simpl in Hlt; unfold MAX_HISTORY in Hlt; lia|].
  simpl. apply last_snoc.
Qed.

(** Recording with the cursor on the newest entry, below capacity. *)
Lemma saveState_at_end st :
  historyIndex st = Z.of_nat (length (history st)) - 1 →
  Z.of_nat (length (history st)) < MAX_HISTORY →
  saveState st
  = set_historyIndex (historyIndex st + 1)
      (set_history (history st ++ [grid st]) st).
Proof.
  intros Hi Hcap.
  apply (saveState_append st ltac:(lia) (history st)); [|done].
  rewrite Hi. symmetry. apply take_ge. lia.
Qed.

Lemma floodFill_same_color row col c st : floodFill row col c c st = st.
Proof.
  unfold floodFill. rewrite floodFill_rec_stop by auto.
  apply set_grid_self.
Qed.

(** C3 (amended). Filling a cell of the grid with the colour it
    already holds leaves every cell unchanged; the fill branch of
    [drawPixel] still records a snapshot, a copy of the unchanged
    grid, as it does after every fill. *)
Theorem fill_same_color st row col :
  currentTool st = fill →
  in_bounds (gridWidth st) (gridHeight st) row col = true →
  get_cell (grid st) row col = Some (currentColor st) →
  drawPixel row col st = saveState (addToColorHistory (currentColor st) st)
  ∧ grid (drawPixel row col st) = grid st
  ∧ last (history (drawPixel row col st)) = Some (grid st)
  ∧ (historyIndex st = Z.of_nat (length (history st)) - 1 →
     Z.of_nat (length (history st)) < MAX_HISTORY →
     history (drawPixel row col st) = history st ++ [grid st]).
Proof.
  intros Ht Hb Hg.
  assert (drawPixel row col st
          = saveState (addToColorHistory (currentColor st) st)) as ->.
  { unfold drawPixel. rewrite Hb, Ht, Hg. simpl.
    by rewrite floodFill_same_color. }
  split; [done|]. split; [by rewrite saveState_grid|].
  split; [by rewrite saveState_last|].
  intros Hi Hcap. by rewrite saveState_at_end.
Qed.

Lemma fill_same_color_witness :
  let st := set_currentColor WHITE (set_currentTool fill initial_state) in
  grid (drawPixel 3 3 st) = grid st
  ∧ history (drawPixel 3 3 st) = history st ++ [grid st].
Proof.
  intros st.
  destruct (fill_same_color st 3 3 eq_refl eq_refl eq_refl)
    as (_ & Hg & _ & Hh).
  split; [exact Hg|]. apply Hh; [reflexivity|]. unfold MAX_HISTORY.
  simpl. lia.
Defined.

(** C3 as stated fails: the no-op fill does record a history entry. *)
Lemma fill_same_color_recorded :
  ¬ (∀ st row col,
       currentTool st = fill →
       in_bounds (gridWidth st) (gridHeight st) row col = true →
       get_cell (grid st) row col = Some (currentColor st) →
       grid (drawPixel row col st) = grid st
       ∧ history (drawPixel row col st) = history st).
Proof.
  intros Hclaim.
  destruct (Hclaim (set_currentColor WHITE (set_currentTool fill initial_state))
              3 3 eq_refl eq_refl eq_refl) as [_ Hh].
  apply (f_equal length) in Hh. vm_compute in Hh. discriminate Hh.
Qed.

Lemma run_click row col st :
  run (click row col) st
  = stopDrawing (stopDrawing (handle (CanvasMouseDown (Some (row, col))) st)).
Proof. done. Qed.

(** The state after the button went down with the fill tool. *)
Lemma fill_mouseDown st row col :
  currentTool st = fill →
  in_bounds (gridWidth st) (gridHeight st) row col = true →
  state_inv st →
  ∃ g' l,
    handle (CanvasMouseDown (Some (row, col))) st
    = saveState
        (set_colorHistory l
           (set_grid g'
              (set_lastDrawnPos (Some (row, col))
                 (set_hoveredCell None (set_isDrawing true st))))).
Proof.
  intros Ht Hb Hinv. simpl. unfold startDrawing, drawPixel. simpl.
  rewrite Hb, Ht. simpl.
  destruct (wf_get_cell _ _ _ _ _ (inv_grid _ Hinv) Hb) as [target ->].
  set (st0 := set_lastDrawnPos _ _).
  destruct (floodFill_total row col target (currentColor st) st0)
    as (g' & _ & ->).
  by eexists _, _.
Qed.

(** C1, at the failing input.  A click with the fill tool records
    two snapshots, not one: [drawPixel] saves the state after the
    fill, and [stopDrawing] saves it again on release, because
    [startDrawing] raised [isDrawing] for every tool.  One [undo]
    after the click leaves the filled grid in place; it takes two to
    get the grid from before the click back. *)
Theorem fill_click_records_twice st row col :
  currentTool st = fill →
  in_bounds (gridWidth st) (gridHeight st) row col = true →
  state_inv st →
  historyIndex st = Z.of_nat (length (history st)) - 1 →
  Z.of_nat (length (history st)) + 2 ≤ MAX_HISTORY →
  let st' := run (click row col) st in
  history st' = history st ++ [grid st'; grid st']
  ∧ historyIndex st' = historyIndex st + 2
  ∧ grid (undo st') = grid st'
  ∧ (last (history st) = Some (grid st) →
     grid (undo (undo st')) = grid st).
Proof.
  intros Ht Hb Hinv Hi Hcap st'. unfold st'. rewrite run_click.
  destruct (fill_mouseDown st row col Ht Hb Hinv) as (g' & l & ->).
  set (st0 := set_colorHistory l _).
  assert (saveState st0
          = set_historyIndex (historyIndex st + 1)
              (set_history (history st ++ [g']) st0)) as ->.
  { apply saveState_at_end; simpl; [done|unfold MAX_HISTORY in *; lia]. }
  set (st1 := set_historyIndex _ _).
  assert (saveState st1
          = set_historyIndex (historyIndex st + 2)
              (set_history (history st ++ [g'; g']) st1)) as Hsave.
  { rewrite saveState_at_end; simpl.
    - rewrite <- app_assoc. simpl.
      by replace (historyIndex st + 1 + 1) with (historyIndex st + 2) by lia.
    - rewrite length_app. simpl. lia.
    - rewrite length_app. unfold MAX_HISTORY in *. simpl. lia. }
  assert (stopDrawing (stopDrawing st1)
          = set_lastDrawnPos None
              (set_isDrawing false
                 (set_historyIndex (historyIndex st + 2)
                    (set_history (history st ++ [g'; g']) st1)))) as ->.
  { unfold stopDrawing at 2. change (isDrawing st1) with true.
    cbv iota. by rewrite Hsave. }
  set (st2 := set_lastDrawnPos None _).
  split; [done|]. split; [done|].
  destruct (inv_cursor _ Hinv) as [Hlo _].
  assert (undo st2 = set_grid g' (set_historyIndex (historyIndex st + 1) st2))
    as Hu1.
  { rewrite (undo_step st2 g'); simpl; [|lia|].
    - do 2 f_equal. lia.
    - replace (Z.to_nat (historyIndex st + 2 - 1))
        with (length (history st) + 0)%nat by lia.
      by rewrite lookup_app_r, Nat.add_comm, Nat.add_sub by lia. }
  split; [by rewrite Hu1|].
  intros Hlast. rewrite Hu1.
  rewrite (undo_step _ (grid st)); simpl; [done|lia|].
  rewrite lookup_app_l by lia.
  rewrite last_lookup in Hlast. rewrite <- Hlast. f_equal. lia.
Qed.

Lemma fill_click_records_twice_witness :
  let st := set_currentTool fill initial_state in
  length (history st) = 1%nat
  ∧ length (history (run (click 3 3) st)) = 3%nat.
Proof.
  intros st. split; [reflexivity|].
  assert (state_inv st) as Hinv.
  { pose proof state_inv_initial as []. by split. }
  assert (Z.of_nat (length (history st)) + 2 ≤ MAX_HISTORY) as Hcap
    by (unfold MAX_HISTORY; simpl; lia).
  destruct (fill_click_records_twice st 3 3 eq_refl eq_refl Hinv eq_refl Hcap)
    as (Hh & _).
  rewrite Hh. reflexivity.
Defined.

(** C2, at the failing input.  The pick itself sets the colour,
    switches to the pencil and touches neither grid nor history; but
    the click that carries it records a snapshot on release, because
    [startDrawing] raised [isDrawing] for every tool. *)
Theorem eyedropper_click_records st row col :
  currentTool st = eyedropper →
  in_bounds (gridWidth st) (gridHeight st) row col = true →
  state_inv st →
  historyIndex st = Z.of_nat (length (history st)) - 1 →
  Z.of_nat (length (history st)) < MAX_HISTORY →
  let picked := drawPixel row col st in
  let st' := run (click row col) st in
  (get_cell (grid st) row col = Some (currentColor picked)
   ∧ currentTool picked = pencil
   ∧ grid picked = grid st
   ∧ history picked = history st
   ∧ historyIndex picked = historyIndex st)
  ∧ (get_cell (grid st) row col = Some (currentColor st')
     ∧ currentTool st' = pencil
     ∧ grid st' = grid st
     ∧ history st' = history st ++ [grid st]
     ∧ historyIndex st' = historyIndex st + 1).
Proof.
  intros Ht Hb Hinv Hi Hcap picked st'.
  destruct (wf_get_cell _ _ _ _ _ (inv_grid _ Hinv) Hb) as [c Hc].
  split.
  - unfold picked, drawPixel. rewrite Hb, Ht, Hc. by simpl.
  - unfold st'. rewrite run_click.
    set (st1 := set_currentTool pencil
                  (set_currentColor c
                     (set_lastDrawnPos (Some (row, col))
                        (set_hoveredCell None (set_isDrawing true st))))).
    assert (handle (CanvasMouseDown (Some (row, col))) st = st1) as ->.
    { simpl. unfold startDrawing, drawPixel. simpl. by rewrite Hb, Ht, Hc. }
    assert (saveState st1
            = set_historyIndex (historyIndex st + 1)
                (set_history (history st ++ [grid st]) st1)) as Hsave
      by by apply (saveState_at_end st1).
    assert (stopDrawing (stopDrawing st1)
            = set_lastDrawnPos None
                (set_isDrawing false
                   (set_historyIndex (historyIndex st + 1)
                      (set_history (history st ++ [grid st]) st1)))) as ->.
    { unfold stopDrawing at 2. change (isDrawing st1) with true.
      cbv iota. by rewrite Hsave. }
    done.
Qed.

Lemma eyedropper_click_records_witness :
  let st := set_currentTool eyedropper initial_state in
  length (history st) = 1%nat
  ∧ length (history (run (click 3 3) st)) = 2%nat.
Proof.
  intros st. split; [reflexivity|].
  assert (state_inv st) as Hinv.
  { pose proof state_inv_initial as []. by split. }
  assert (Z.of_nat (length (history st)) < MAX_HISTORY) as Hcap
    by (unfold MAX_HISTORY; simpl; lia).
  destruct (eyedropper_click_records st 3 3 eq_refl eq_refl Hinv eq_refl Hcap)
    as [_ (_ & _ & _ & Hh & _)].
  rewrite Hh. reflexivity.
Defined.
End gestures.

Section brush_gesture.
Implicit Types (st : State) (row col : Z).

Lemma same_session_refl st : same_session st st.
Proof. done. Qed.

Lemma same_session_trans st1 st2 st3 :
  same_session st1 st2 → same_session st2 st3 → same_session st1 st3.
Proof. intros (? & ? & ? & ?) (? & ? & ? & ?). repeat split; congruence. Qed.

(** With the pencil or the eraser, [drawPixel] records nothing. *)
Lemma drawPixel_brush_session row col st :
  is_brush_tool (currentTool st) = true →
  same_session st (drawPixel row col st).
Proof.
  intros Ht. unfold drawPixel.
  destruct (in_bounds _ _ row col); simpl; [|done].
  by destruct (currentTool st).
Qed.

Lemma visit_all_brush_session cells : ∀ st,
  is_brush_tool (currentTool st) = true →
  same_session st (visit_all drawPixel cells st).
Proof.
  induction cells as [|[a b] cells IH]; intros st Ht; [done|].
  pose proof (drawPixel_brush_session a b st Ht) as Hs.
  eapply same_session_trans; [exact Hs|]. apply IH.
  destruct Hs as (_ & _ & -> & _). done.
Qed.

Lemma mouseMove_brush_session c st :
  is_brush_tool (currentTool st) = true → isDrawing st = true →
  same_session st (onCanvasMouseMove 1 (Some c) st).
Proof.
  intros Ht Hd. destruct c as [row col]. unfold onCanvasMouseMove.
  rewrite Hd, Ht. simpl. rewrite Hd, Ht. simpl.
  destruct (lastDrawnPos st) as [[lrow lcol]|].
  - destruct (negb (lrow =? row) || negb (lcol =? col)); [|done].
    destruct (drawLine_visit_all lrow lcol row col) as (cells & ->).
    by apply visit_all_brush_session.
  - by apply drawPixel_brush_session.
Qed.

Lemma run_moves_brush_session path : ∀ st,
  is_brush_tool (currentTool st) = true → isDrawing st = true →
  same_session st (run (map (λ c, CanvasMouseMove 1 (Some c)) path) st).
Proof.
  induction path as [|c path IH]; intros st Ht Hd; [done|].
  pose proof (mouseMove_brush_session c st Ht Hd) as Hs.
  eapply same_session_trans; [exact Hs|].
  destruct Hs as (_ & _ & Ht' & Hd'). apply IH; congruence.
Qed.

(** A drag with the pencil or the eraser records exactly one
    snapshot, taken on release: the grid the stroke produced.  One
    [undo] brings back the grid from before the drag. *)
Lemma brush_drag_records_once st start path :
  is_brush_tool (currentTool st) = true →
  historyIndex st = Z.of_nat (length (history st)) - 1 →
  Z.of_nat (length (history st)) < MAX_HISTORY →
  let st' := run (drag start path) st in
  history st' = history st ++ [grid st']
  ∧ historyIndex st' = historyIndex st + 1
  ∧ (0 ≤ historyIndex st → last (history st) = Some (grid st) →
     grid (undo st') = grid st).
Proof.
  intros Ht Hi Hcap st'. destruct start as [row col].
  set (st0 := set_lastDrawnPos (Some (row, col))
                (set_hoveredCell None (set_isDrawing true st))).
  set (st1 := drawPixel row col st0).
  set (st2 := run (map (λ c, CanvasMouseMove 1 (Some c)) path) st1).
  assert (st' = stopDrawing (stopDrawing st2)) as ->.
  { unfold st', drag, run. simpl. by rewrite foldl_app. }
  assert (same_session st0 st1) as H01
    by by apply drawPixel_brush_session.
  assert (same_session st1 st2) as H12.
  { destruct H01 as (_ & _ & Ht1 & Hd1).
    apply run_moves_brush_session; [by rewrite Ht1|by rewrite Hd1]. }
  destruct (same_session_trans _ _ _ H01 H12) as (Hh & Hidx & _ & Hd).
  simpl in Hh, Hidx, Hd.
  assert (saveState st2
          = set_historyIndex (historyIndex st + 1)
              (set_history (history st ++ [grid st2]) st2)) as Hsave.
  { rewrite saveState_at_end; rewrite ?Hh, ?Hidx; done. }
  assert (stopDrawing (stopDrawing st2)
          = set_lastDrawnPos None
              (set_isDrawing false
                 (set_historyIndex (historyIndex st + 1)
                    (set_history (history st ++ [grid st2]) st2)))) as ->.
  { unfold stopDrawing at 2. rewrite Hd, Hsave. done. }
  split; [done|]. split; [done|]. intros Hlo Hlast.
  rewrite (undo_step _ (grid st)); simpl; [done|lia|].
  rewrite lookup_app_l by lia.
  rewrite last_lookup in Hlast. rewrite <- Hlast. f_equal. lia.
Qed.
End brush_gesture.

(** * Further properties *)

(** ** Flood fill: the region that is repainted *)

Section floodFill_region.
Variables (w h : Z) (t r : string).
Hypothesis t_ne_r : t ≠ r.
Implicit Types (g : list (list string)) (row col : Z) (d : nat)
  (p q : Z * Z).

Lemma connected_start g p q : connected g t p q → get_cell g p.1 p.2 = Some t.
Proof. induction 1; auto. Qed.

Lemma connected_end g p q : connected g t p q → get_cell g q.1 q.2 = Some t.
Proof. by destruct 1. Qed.

Lemma connected_trans g p q q' :
  connected g t p q → connected g t q q' → connected g t p q'.
Proof.
  intros Hpq Hqq'. induction Hqq' as [|q q1 q2 Hqq1 IH Hadj Hq2]; [done|].
  eapply connected_step; [apply IH, Hpq|exact Hadj|exact Hq2].
Qed.

(** A path through target cells of a later grid is one of the
    earlier grid. *)
Lemma connected_repainted g g' p q :
  repainted t r g g' → connected g' t p q → connected g t p q.
Proof.
  intros Hrep.
  assert (∀ c, get_cell g' c.1 c.2 = Some t → get_cell g c.1 c.2 = Some t)
    as Hsub.
  { intros c Hc. destruct (Hrep c.1 c.2) as [E|[_ E]]; congruence. }
  induction 1 as [|p q q' Hpq IH Hadj Hq'].
  - apply connected_refl. auto.
  - eapply connected_step; [exact IH|exact Hadj|auto].
Qed.

(** Every cell a call repaints is connected to the cell it was
    called on. *)
Lemma floodFill_rec_reach d : ∀ g row col g',
  floodFill_rec d w h g row col t r = Some g' →
  ∀ p, get_cell g p.1 p.2 = Some t → get_cell g' p.1 p.2 = Some r →
       connected g t (row, col) p.
Proof.
  induction d as [|d IH]; intros g row col g' Hff p Hp Hp'; [done|].
  destruct (floodFill_rec_cases w h t r g row col)
    as [Hstop|(_ & Hb & Hg)].
  - rewrite floodFill_rec_stop in Hff by done.
    injection Hff as <-. congruence.
  - rewrite floodFill_rec_go in Hff by done.
    set (g0 := set_cell g row col r) in *.
    ff_bind g1 E1. ff_bind g2 E2. ff_bind g3 E3.
    destruct (floodFill_rec_spec w h t r t_ne_r _ _ _ _ _ E1) as (M1 & _).
    destruct (floodFill_rec_spec w h t r t_ne_r _ _ _ _ _ E2) as (M2 & _).
    destruct (floodFill_rec_spec w h t r t_ne_r _ _ _ _ _ E3) as (M3 & _).
    assert (repainted t r g g0) as M0 by by apply repainted_set_cell.
    assert (connected g t (row, col) (row, col)) as Hself
      by by apply connected_refl.
    destruct (decide (p = (row, col))) as [->|Hne]; [done|].
    assert (get_cell g0 p.1 p.2 = Some t) as Hp0.
    { unfold g0. rewrite get_set_cell_ne; [done|].
      destruct p. simpl. congruence. }
    assert (∀ gi q, repainted t r g gi → adjacent4 (row, col) q →
              connected gi t q p → connected g t (row, col) p) as Hvia.
    { intros gi q Hrep Hadj Hqp.
      apply (connected_repainted g) in Hqp; [|done].
      eapply connected_trans; [|exact Hqp].
      eapply connected_step; [exact Hself|exact Hadj|].
      by eapply connected_start. }
    destruct (M1 p.1 p.2) as [E1'|[_ E1']].
    2:{ apply (Hvia g0 (row - 1, col)); [done|unfold adjacent4; simpl; lia|].
        by apply (IH _ _ _ _ E1). }
    destruct (M2 p.1 p.2) as [E2'|[_ E2']].
    2:{ apply (Hvia g1 (row + 1, col));
          [eauto using repainted_trans|unfold adjacent4; simpl; lia|].
        apply (IH _ _ _ _ E2); congruence. }
    destruct (M3 p.1 p.2) as [E3'|[_ E3']].
    2:{ apply (Hvia g2 (row, col - 1));
          [eauto using repainted_trans|unfold adjacent4; simpl; lia|].
        apply (IH _ _ _ _ E3); congruence. }
    apply (Hvia g3 (row, col + 1));
      [eauto using repainted_trans|unfold adjacent4; simpl; lia|].
    apply (IH _ _ _ _ Hff); congruence.
Qed.

(** Every target cell connected to the start of a call is repainted. *)
Lemma floodFill_rec_covers d g row col g' :
  wf_grid w h g →
  floodFill_rec d w h g row col t r = Some g' →
  ∀ p, connected g t (row, col) p → get_cell g' p.1 p.2 = Some r.
Proof.
  intros Hwf Hff.
  destruct (floodFill_rec_spec w h t r t_ne_r _ _ _ _ _ Hff) as (M & S & C).
  assert (∀ c, get_cell g c.1 c.2 = Some t →
               in_bounds w h c.1 c.2 = true) as Hin.
  { intros c Hc. destruct (in_bounds w h c.1 c.2) eqn:E; [done|].
    destruct Hwf as [Hl Hr].
    destruct (get_cell_Some_nonneg _ _ _ _ Hc) as [? ?].
    rewrite get_cell_lookup in Hc by lia.
    destruct (g !! Z.to_nat c.1) as [x|] eqn:Ex; [|done].
    simpl in Hc. apply lookup_lt_Some in Hc, Ex as Ex'.
    rewrite Forall_lookup in Hr. rewrite (Hr _ _ Ex) in Hc.
    unfold in_bounds in E.
    repeat (apply andb_false_iff in E as [E|E]);
      first [apply Z.leb_gt in E|apply Z.ltb_ge in E]; lia. }
  intros p Hp. remember (row, col) as p0 eqn:Ep0.
  induction Hp as [p Hp|p q q' Hpq IH Hadj Hq']; subst.
  - destruct (M row col) as [E|[_ E]]; [|done].
    exfalso. apply S; [by apply (Hin (row, col))|]. simpl in *. congruence.
  - specialize (IH eq_refl).
    destruct (M q'.1 q'.2) as [E|[_ E]]; [|done].
    exfalso. apply (C q q');
      [by eapply connected_end|exact IH|exact Hadj|by apply Hin|congruence].
Qed.
End floodFill_region.

Section floodFill_region_claim.
Implicit Types (st : State) (row col : Z).

(** X1. On a grid of the declared shape, [floodFill] from a cell with
    a replacement colour other than the target colour repaints
    exactly the cells connected to that cell through 4-adjacent cells
    of the target colour, and changes no other cell; so does the fill
    tool, whose target colour is the colour of the clicked cell. *)
Theorem floodFill_region st row col (t r : string) :
  wf_grid (gridWidth st) (gridHeight st) (grid st) →
  t ≠ r →
  let g' := grid (floodFill row col t r st) in
  wf_grid (gridWidth st) (gridHeight st) g'
  ∧ (∀ p, connected (grid st) t (row, col) p →
          get_cell g' p.1 p.2 = Some r)
  ∧ (∀ p, ¬ connected (grid st) t (row, col) p →
          get_cell g' p.1 p.2 = get_cell (grid st) p.1 p.2)
  ∧ (currentTool st = fill → currentColor st = r →
     get_cell (grid st) row col = Some t →
     in_bounds (gridWidth st) (gridHeight st) row col = true →
     grid (drawPixel row col st) = g').
Proof.
  intros Hwf Hne g'.
  destruct (floodFill_total row col t r st) as (g1 & Hff & Hst).
  assert (g' = g1) as -> by (unfold g'; by rewrite Hst).
  split; [by eapply floodFill_rec_wf|]. split; [|split].
  - intros p Hp. by eapply floodFill_rec_covers.
  - intros p Hp.
    destruct (floodFill_rec_spec _ _ t r Hne _ _ _ _ _ Hff) as (M & _).
    destruct (M p.1 p.2) as [E|[E1 E2]]; [done|].
    exfalso. apply Hp. by eapply floodFill_rec_reach.
  - intros Ht Hc Hg Hb. unfold drawPixel. rewrite Hb, Ht, Hg. simpl.
    rewrite saveState_grid. simpl. by rewrite Hc, Hst.
Qed.

Lemma floodFill_region_witness :
  let st := set_grid [[WHITE; BLACK; WHITE]; [WHITE; BLACK; WHITE]]
              (set_gridHeight 2 (set_gridWidth 3 mount_state)) in
  get_cell (grid (floodFill 0 0 WHITE "#FF0000" st)) 1 0 = Some "#FF0000".
Proof.
  intros st.
  assert (wf_grid (gridWidth st) (gridHeight st) (grid st)) as Hwf.
  { split; [reflexivity|]. by repeat constructor. }
  assert (WHITE ≠ "#FF0000") as Hne by discriminate.
  destruct (floodFill_region st 0 0 WHITE "#FF0000" Hwf Hne)
    as (_ & Hcov & _ & _).
  apply (Hcov (1, 0)).
  eapply connected_step; [by apply connected_refl| |done].
  unfold adjacent4. simpl. lia.
Defined.
End floodFill_region_claim.

(** ** History: undo, redo and recording after an undo *)

Section history_more.
Implicit Types (st : State) (g : list (list string)).

Lemma undo_history st : history (undo st) = history st.
Proof.
  unfold undo. destruct (0 <? historyIndex st); [|done].
  simpl. by destruct (history st !! Z.to_nat (historyIndex st - 1)).
Qed.

Lemma redo_history st : history (redo st) = history st.
Proof.
  unfold redo. destruct (_ <? _); [|done].
  simpl. by destruct (history st !! Z.to_nat (historyIndex st + 1)).
Qed.

Lemma redo_undo_cancel st :
  cursor_ok st →
  history st !! Z.to_nat (historyIndex st) = Some (grid st) →
  0 < historyIndex st → redo (undo st) = st.
Proof.
  intros [Hlo Hhi] Hcur Hpos.
  destruct (lookup_lt_is_Some_2 (history st)
              (Z.to_nat (historyIndex st - 1))) as [g Hg]; [lia|].
  rewrite (undo_step st g) by done.
  rewrite (redo_step _ (grid st)); simpl; [|lia|].
  - replace (historyIndex st - 1 + 1) with (historyIndex st) by lia.
    by destruct st.
  - by replace (historyIndex st - 1 + 1) with (historyIndex st) by lia.
Qed.

Lemma undo_redo_cancel st :
  cursor_ok st →
  history st !! Z.to_nat (historyIndex st) = Some (grid st) →
  historyIndex st < Z.of_nat (length (history st)) - 1 →
  undo (redo st) = st.
Proof.
  intros [Hlo Hhi] Hcur Hlt.
  destruct (lookup_lt_is_Some_2 (history st)
              (Z.to_nat (historyIndex st + 1))) as [g Hg]; [lia|].
  rewrite (redo_step st g) by done.
  rewrite (undo_step _ (grid st)); simpl; [|lia|].
  - replace (historyIndex st + 1 - 1) with (historyIndex st) by lia.
    by destruct st.
  - by replace (historyIndex st + 1 - 1) with (historyIndex st) by lia.
Qed.

(** X2. [undo] and [redo] move the cursor without touching the
    entries, and they are inverse to each other: from a state whose
    grid is the entry under the cursor, [redo] after a possible
    [undo], and [undo] after a possible [redo], give the state
    back. *)
Theorem undo_redo_inverse st :
  cursor_ok st →
  history st !! Z.to_nat (historyIndex st) = Some (grid st) →
  history (undo st) = history st
  ∧ history (redo st) = history st
  ∧ (0 < historyIndex st → redo (undo st) = st)
  ∧ (historyIndex st < Z.of_nat (length (history st)) - 1 →
     undo (redo st) = st).
Proof.
  intros Hc Hcur.
  split; [apply undo_history|]. split; [apply redo_history|].
  split; intros ?; [by apply redo_undo_cancel|by apply undo_redo_cancel].
Qed.

Lemma undo_redo_inverse_witness :
  let st := record_all [create 32 32 BLACK] initial_state in
  redo (undo st) = st ∧ undo (redo (undo st)) = undo st.
Proof.
  intros st.
  assert (cursor_ok st) as Hc by (split; simpl; lia).
  destruct (undo_redo_inverse st Hc eq_refl) as (_ & _ & Hru & _).
  assert (cursor_ok (undo st)) as Hc' by (split; simpl; lia).
  destruct (undo_redo_inverse (undo st) Hc' eq_refl) as (_ & _ & _ & Hur).
  split; [apply Hru; simpl; lia|apply Hur; simpl; lia].
Defined.

(** X3. Recording a new state while entries lie beyond the cursor
    (after an undo) discards those entries: the stack becomes the
    entries up to the cursor followed by the new one, the cursor
    moves onto it, nothing is left to redo, and one [undo] returns to
    the entry the cursor was on. *)
Theorem record_discards_redo st g :
  cursor_ok st →
  Z.of_nat (length (history st)) ≤ MAX_HISTORY →
  historyIndex st < Z.of_nat (length (history st)) - 1 →
  let st' := record g st in
  history st' = take (Z.to_nat (historyIndex st + 1)) (history st) ++ [g]
  ∧ historyIndex st' = historyIndex st + 1
  ∧ (length (history st') ≤ length (history st))%nat
  ∧ redo st' = st'
  ∧ grid (undo st') = default g (history st !! Z.to_nat (historyIndex st)).
Proof.
  intros [Hlo Hhi] Hcap Hlt st'. unfold MAX_HISTORY in *.
  set (h1 := take (Z.to_nat (historyIndex st + 1)) (history st)).
  assert (length h1 = Z.to_nat (historyIndex st + 1)) as Hl1.
  { unfold h1. rewrite length_take. lia. }
  assert (st' = set_historyIndex (historyIndex st + 1)
                  (set_history (h1 ++ [g]) (set_grid g st))) as ->.
  { unfold st', record.
    rewrite (saveState_append (set_grid g st) ltac:(simpl; lia) h1);
      [done|done|unfold MAX_HISTORY; lia]. }
  simpl. split; [done|]. split; [done|].
  split; [rewrite length_app; simpl; lia|]. split.
  - apply redo_at_newest. simpl. rewrite length_app. simpl. lia.
  - destruct (lookup_lt_is_Some_2 (history st)
                (Z.to_nat (historyIndex st))) as [g0 Hg0]; [lia|].
    rewrite Hg0. simpl.
    rewrite (undo_step _ g0); simpl; [done|lia|].
    replace (historyIndex st + 1 - 1) with (historyIndex st) by lia.
    rewrite lookup_app_l by lia. unfold h1.
    rewrite lookup_take_lt by lia. done.
Qed.

Lemma record_discards_redo_witness :
  let st := undo (record_all [create 32 32 BLACK] initial_state) in
  history (record (create 32 32 "#FF0000") st)
  = [create 32 32 WHITE; create 32 32 "#FF0000"].
Proof.
  intros st.
  assert (cursor_ok st) as Hc by (split; simpl; lia).
  assert (Z.of_nat (length (history st)) ≤ MAX_HISTORY) as Hcap
    by (unfold MAX_HISTORY; simpl; lia).
  assert (historyIndex st < Z.of_nat (length (history st)) - 1) as Hlt
    by (simpl; lia).
  destruct (record_discards_redo st (create 32 32 "#FF0000") Hc Hcap Hlt)
    as (Hh & _).
  rewrite Hh. reflexivity.
Defined.
End history_more.

(** ** More invariants of the editor *)

Section more_invariants.
Implicit Types (st : State) (row col : Z).

Lemma same_frame_trans st1 st2 st3 :
  same_frame st1 st2 → same_frame st2 st3 → same_frame st1 st3.
Proof. intros (? & ? & ? & ?) (? & ? & ? & ?). repeat split; congruence. Qed.

Lemma drawPixel_frame row col st : same_frame st (drawPixel row col st).
Proof.
  unfold drawPixel. destruct (in_bounds _ _ row col); simpl; [|done].
  destruct (currentTool st); try done.
  - destruct (get_cell (grid st) row col) as [target|]; [|done].
    destruct (floodFill_total row col target (currentColor st) st)
      as (g' & _ & ->).
    destruct (saveState_fields
                (addToColorHistory (currentColor (set_grid g' st))
                   (set_grid g' st))) as (Ew & Eh & _ & _ & _ & _ & Ed).
    unfold same_frame. rewrite Ew, Eh, Ed.
    unfold saveState. by destruct (_ <? _).
  - by destruct (get_cell (grid st) row col).
Qed.

Lemma drawLine_frame row0 col0 row1 col1 st :
  same_frame st (drawLine row0 col0 row1 col1 st).
Proof.
  destruct (drawLine_visit_all row0 col0 row1 col1) as (cells & ->).
  apply (visit_all_preserves (same_frame st)); [|done].
  intros row col s Hs. eapply same_frame_trans; [exact Hs|].
  apply drawPixel_frame.
Qed.

Lemma square_dims_frame st st' :
  same_frame st st' → square_dims st → square_dims st'.
Proof. intros (Ew & Eh & _) [? ?]. unfold square_dims. rewrite Ew, Eh. done. Qed.

Lemma stopDrawing_dims st :
  gridWidth (stopDrawing st) = gridWidth st
  ∧ gridHeight (stopDrawing st) = gridHeight st.
Proof.
  unfold stopDrawing. destruct (isDrawing st); simpl; [|done].
  by destruct (saveState_fields st) as (-> & -> & _).
Qed.

Lemma handle_square_dims ev st : square_dims st → square_dims (handle ev st).
Proof.
  intros Hsq. destruct ev; simpl.
  - destruct coords as [[row col]|]; [|done].
    eapply square_dims_frame; [apply drawPixel_frame|done].
  - unfold onCanvasMouseMove. destruct (buttons =? 1).
    + set (st1 := if negb (isDrawing st) && is_brush_tool (currentTool st)
                  then set_isDrawing true st else st).
      assert (square_dims st1) as Hsq1.
      { unfold st1. by destruct (_ && _). }
      clearbody st1.
      destruct coords as [[row col]|]; [|done].
      destruct (isDrawing st1 && is_brush_tool (currentTool st1)); [|done].
      destruct (lastDrawnPos st1) as [[lrow lcol]|].
      * destruct (negb (lrow =? row) || negb (lcol =? col)); [|done].
        eapply (square_dims_frame st1); [|done].
        destruct (drawLine_frame lrow lcol row col st1) as (? & ? & ? & ?).
        by repeat split.
      * eapply (square_dims_frame st1); [|done].
        destruct (drawPixel_frame row col st1) as (? & ? & ? & ?).
        by repeat split.
    + by destruct coords.
  - unfold square_dims, onCanvasMouseUp.
    destruct (stopDrawing_dims (stopDrawing st)) as [-> ->].
    by destruct (stopDrawing_dims st) as [-> ->].
  - unfold square_dims. by destruct (stopDrawing_dims st) as [-> ->].
  - unfold onCanvasMouseLeave. by destruct (hoveredCell st).
  - done.
  - done.
  - done.
  - unfold undo. destruct (0 <? historyIndex st); [|done]. simpl.
    by destruct (history st !! Z.to_nat (historyIndex st - 1)).
  - unfold redo. destruct (_ <? _); [|done]. simpl.
    by destruct (history st !! Z.to_nat (historyIndex st + 1)).
  - unfold clearGrid, square_dims.
    by destruct (saveState_fields (set_grid
         (foldl (λ g row, foldl (λ g col, set_cell g row col WHITE)
                  g (seqZ 0 (gridWidth st)))
            (grid st) (seqZ 0 (gridHeight st))) st)) as (-> & -> & _).
  - unfold resizeGrid. destruct value as [newSize|]; [|done].
    destruct (Z.ltb_spec newSize 8), (Z.ltb_spec 64 newSize); simpl;
      first [done|split; simpl; [done|lia]].
Qed.

(** X4. In every state the editor can reach the grid is square with a
    side between 8 and 64 cells: it has that many rows, each of that
    many cells, and every cell within these bounds holds a colour. *)
Theorem reachable_square st :
  reachable st →
  gridWidth st = gridHeight st
  ∧ 8 ≤ gridWidth st ≤ 64
  ∧ length (grid st) = Z.to_nat (gridHeight st)
  ∧ Forall (λ r, length r = Z.to_nat (gridWidth st)) (grid st)
  ∧ (∀ row col,
       in_bounds (gridWidth st) (gridHeight st) row col = true →
       is_Some (get_cell (grid st) row col)).
Proof.
  intros Hreach.
  assert (square_dims st) as [Heq Hrange].
  { induction Hreach as [|st ev _ IH]; [|by apply handle_square_dims].
    split; simpl; [done|lia]. }
  destruct (inv_grid _ (reachable_inv st Hreach)) as [Hlen Hrows].
  split; [done|]. split; [done|]. split; [done|]. split; [done|].
  intros row col Hb. by eapply wf_get_cell.
Qed.

Lemma reachable_square_witness :
  let st := handle (ResizeSubmitted (Some 16)) initial_state in
  gridWidth st = gridHeight st ∧ length (grid st) = 16%nat.
Proof.
  intros st.
  assert (reachable st) as Hr by (apply reachable_step, reachable_init).
  destruct (reachable_square st Hr) as (Hsq & _ & Hlen & _).
  split; [exact Hsq|]. rewrite Hlen. reflexivity.
Defined.

(** The entry under the cursor after a recording is the grid. *)
Lemma saveState_synced st :
  state_inv st →
  history (saveState st) !! Z.to_nat (historyIndex (saveState st))
  = Some (grid (saveState st)).
Proof.
  intros Hinv.
  destruct (saveState_cursor st (inv_cursor _ Hinv) (inv_capacity _ Hinv))
    as [_ Hi].
  rewrite saveState_grid, <- saveState_last, last_lookup, Hi.
  f_equal. lia.
Qed.

Lemma stopDrawing_synced st :
  state_inv st → idle_synced st → idle_synced (stopDrawing st).
Proof.
  intros Hinv Hs _. unfold stopDrawing.
  destruct (isDrawing st) eqn:Hd; simpl.
  - by apply saveState_synced.
  - by apply Hs.
Qed.

Lemma startDrawing_isDrawing row col st :
  isDrawing (startDrawing row col st) = true.
Proof.
  unfold startDrawing.
  by destruct (drawPixel_frame row col
       (set_lastDrawnPos (Some (row, col))
          (set_hoveredCell None (set_isDrawing true st))))
    as (_ & _ & -> & _).
Qed.

(** A pointer move changes nothing, or only the hovered cell, or
    leaves a gesture in progress. *)
Lemma onCanvasMouseMove_cases buttons coords st :
  onCanvasMouseMove buttons coords st = st
  ∨ isDrawing (onCanvasMouseMove buttons coords st) = true
  ∨ ∃ c, onCanvasMouseMove buttons coords st = set_hoveredCell (Some c) st.
Proof.
  unfold onCanvasMouseMove. destruct (buttons =? 1).
  - set (st1 := if negb (isDrawing st) && is_brush_tool (currentTool st)
                then set_isDrawing true st else st).
    assert (st1 = st ∨ isDrawing st1 = true) as Hst1.
    { unfold st1. destruct (_ && _); auto. }
    clearbody st1.
    assert (isDrawing st1 = true → ∀ st2, same_frame st1 st2 →
              isDrawing st2 = true) as Hkeep.
    { intros Hd st2 (_ & _ & -> & _). done. }
    destruct coords as [[row col]|]; [|destruct Hst1 as [->|?]; auto].
    destruct (isDrawing st1) eqn:Hd; simpl;
      [|destruct Hst1 as [->|?]; [auto|done]].
    destruct (is_brush_tool (currentTool st1));
      [|destruct Hst1 as [->|?]; auto].
    right; left. simpl.
    destruct (lastDrawnPos st1) as [[lrow lcol]|].
    + destruct (negb (lrow =? row) || negb (lcol =? col)); [|done].
      apply Hkeep; [done|apply drawLine_frame].
    + apply Hkeep; [done|apply drawPixel_frame].
  - destruct coords as [c|]; [|by left]. right; right. by exists c.
Qed.

Lemma handle_idle_synced ev st :
  state_inv st → idle_synced st → idle_synced (handle ev st).
Proof.
  intros Hinv Hs. destruct ev; unfold handle.
  - destruct coords as [[row col]|]; [|done].
    intros Hd. unfold onCanvasMouseDown in Hd.
    by rewrite startDrawing_isDrawing in Hd.
  - destruct (onCanvasMouseMove_cases buttons coords st)
      as [->|[Hd|[c ->]]]; [done| |done].
    intros Hd'. congruence.
  - unfold onCanvasMouseUp.
    apply stopDrawing_synced; [by apply state_inv_stopDrawing|].
    by apply stopDrawing_synced.
  - by apply stopDrawing_synced.
  - unfold onCanvasMouseLeave. by destruct (hoveredCell st).
  - done.
  - done.
  - done.
  - intros Hd. destruct (inv_cursor _ Hinv) as [Hlo Hhi].
    destruct (Z.le_gt_cases (historyIndex st) 0) as [Hle|Hgt].
    + rewrite undo_at_oldest in * by done. by apply Hs.
    + destruct (lookup_lt_is_Some_2 (history st)
                  (Z.to_nat (historyIndex st - 1))) as [g Hg]; [lia|].
      rewrite (undo_step st g) by (done || lia). done.
  - intros Hd. destruct (inv_cursor _ Hinv) as [Hlo Hhi].
    destruct (Z.le_gt_cases (Z.of_nat (length (history st)) - 1)
                (historyIndex st)) as [Hle|Hgt].
    + rewrite redo_at_newest in * by done. by apply Hs.
    + destruct (lookup_lt_is_Some_2 (history st)
                  (Z.to_nat (historyIndex st + 1))) as [g Hg]; [lia|].
      rewrite (redo_step st g) by (done || lia). done.
  - intros _. unfold clearGrid. apply saveState_synced.
    apply state_inv_set_grid; [done|].
    pose proof (inv_grid _ (state_inv_clearGrid st Hinv)) as Hwf.
    unfold clearGrid in Hwf.
    by destruct (saveState_fields (set_grid
         (foldl (λ g row, foldl (λ g col, set_cell g row col WHITE)
                  g (seqZ 0 (gridWidth st)))
            (grid st) (seqZ 0 (gridHeight st))) st))
      as (Ew & Eh & Eg & _); rewrite Ew, Eh, Eg in Hwf.
  - unfold resizeGrid. destruct value as [newSize|]; [|done].
    destruct ((newSize <? 8) || (64 <? newSize)); [done|].
    intros _. done.
Qed.

Lemma reachable_run evs : ∀ st, reachable st → reachable (run evs st).
Proof.
  induction evs as [|ev evs IH]; intros st Hst; [done|].
  apply (IH (handle ev st)). by apply reachable_step.
Qed.

(** X5. Whenever no gesture is in progress, in every state the editor
    can reach, the grid on screen is the history entry under the
    cursor: every finished edit has been recorded, and [undo]
    followed by [redo] (or [redo] followed by [undo]) gives exactly
    the state it started from. *)
Theorem reachable_idle_synced st :
  reachable st → isDrawing st = false →
  history st !! Z.to_nat (historyIndex st) = Some (grid st)
  ∧ (0 < historyIndex st → redo (undo st) = st)
  ∧ (historyIndex st < Z.of_nat (length (history st)) - 1 →
     undo (redo st) = st).
Proof.
  intros Hreach Hd.
  assert (idle_synced st) as Hs.
  { clear Hd. induction Hreach as [|st ev Hreach IH]; [by intros _|].
    apply handle_idle_synced; [by apply reachable_inv|done]. }
  specialize (Hs Hd). split; [done|].
  pose proof (inv_cursor _ (reachable_inv st Hreach)) as Hcur.
  split; intros ?; [by apply redo_undo_cancel|by apply undo_redo_cancel].
Qed.

Lemma reachable_idle_synced_witness :
  let st := run (drag (3, 3) [(3, 4); (5, 6)]) initial_state in
  history st !! Z.to_nat (historyIndex st) = Some (grid st)
  ∧ redo (undo st) = st.
Proof.
  intros st.
  assert (reachable st) as Hr by apply reachable_run, reachable_init.
  assert (isDrawing st = false) as Hd by (vm_compute; reflexivity).
  destruct (reachable_idle_synced st Hr Hd) as (Hs & Hru & _).
  split; [exact Hs|]. apply Hru. vm_compute. reflexivity.
Defined.
End more_invariants.

(** ** Strokes: where the line goes and what it paints *)

Section line_path.
Implicit Types (dx dy sx sy row col err i j : Z) (n : nat)
  (cells : list (Z * Z)).

(** One iteration of the loop of [drawLine] that is not the last. *)
Lemma line_inv_step dx dy sx sy row0 col0 n i j err row col :
  0 ≤ dx → 0 ≤ dy → sx = 1 ∨ sx = -1 → sy = 1 ∨ sy = -1 →
  line_inv dx dy (S n) i j →
  err = dx - dy - (i * dy - j * dx) →
  row = row0 + sy * j → col = col0 + sx * i →
  ∃ i' j',
    (if - dy <? 2 * err then i' = i + 1 else i' = i)
    ∧ (if 2 * err <? dx then j' = j + 1 else j' = j)
    ∧ (if dy <=? dx then i' = i + 1 else j' = j + 1)
    ∧ line_inv dx dy n i' j'
    ∧ (row =? row0 + sy * dy) && (col =? col0 + sx * dx) = false.
Proof.
  intros Hdx Hdy Hsx Hsy Hinv Herr Hrow Hcol.
  destruct Hinv
    as [(_ & _ & _ & _ & ?)|[(Hle & Hpos & Hi & Hb)|(Hlt & Hj & Hb)]];
    [done| |].
  - exists (i + 1).
    destruct (Z.leb_spec dy dx); [|lia].
    destruct (Z.ltb_spec (- dy) (2 * err)); [|lia].
    destruct (Z.ltb_spec (2 * err) dx).
    + exists (j + 1). repeat split; try done.
      * right; left. repeat split; lia.
      * apply andb_false_iff. right. apply Z.eqb_neq.
        destruct Hsx; subst; lia.
    + exists j. repeat split; try done.
      * right; left. repeat split; lia.
      * apply andb_false_iff. right. apply Z.eqb_neq.
        destruct Hsx; subst; lia.
  - exists (if - dy <? 2 * err then i + 1 else i), (j + 1).
    destruct (Z.leb_spec dy dx); [lia|].
    destruct (Z.ltb_spec (2 * err) dx); [|lia].
    destruct (Z.ltb_spec (- dy) (2 * err)).
    + repeat split; try done.
      * right; right. repeat split; lia.
      * apply andb_false_iff. left. apply Z.eqb_neq.
        destruct Hsy; subst; lia.
    + repeat split; try done.
      * right; right. repeat split; lia.
      * apply andb_false_iff. left. apply Z.eqb_neq.
        destruct Hsy; subst; lia.
Qed.

(** The invariant keeps the step counts within the extent of the line. *)
Lemma line_inv_box dx dy n i j :
  0 ≤ dx → 0 ≤ dy → 0 ≤ i → 0 ≤ j →
  line_inv dx dy n i j → i ≤ dx ∧ j ≤ dy.
Proof.
  intros Hdx Hdy Hi Hj
    [(-> & -> & -> & -> & _)|[(Hle & Hpos & -> & Hb)|(Hlt & -> & Hb)]];
    [done| |].
  - split; [lia|].
    destruct (Z.le_gt_cases j dy) as [?|Hgt]; [done|]. exfalso.
    assert (dx * (dy + 1) ≤ j * dx) by nia.
    assert ((dx - Z.of_nat n) * dy ≤ dx * dy) by nia.
    nia.
  - split; [|lia].
    destruct (Z.le_gt_cases i dx) as [?|Hgt]; [done|]. exfalso.
    assert ((dx + 1) * dy ≤ i * dy) by nia.
    assert ((dy - Z.of_nat n) * dx ≤ dy * dx) by nia.
    nia.
Qed.

(** The cells of the run, with the number of steps each one is from
    the start along the columns and along the rows. *)
Lemma bresenham_loop_path dx dy sx sy row0 col0 :
  0 ≤ dx → 0 ≤ dy → sx = 1 ∨ sx = -1 → sy = 1 ∨ sy = -1 →
  ∀ n i j err row col,
    line_inv dx dy n i j → 0 ≤ i → 0 ≤ j →
    err = dx - dy - (i * dy - j * dx) →
    row = row0 + sy * j → col = col0 + sx * i →
    ∃ cells,
      (∀ S (visit : Z → Z → S → S) (s : S),
          bresenham_loop visit (Datatypes.S n) dx dy sx sy
            (row0 + sy * dy) (col0 + sx * dx) err row col s
          = Some (visit_all visit cells s))
      ∧ NoDup cells
      ∧ Forall (λ c, ∃ i' j',
                  c = (row0 + sy * j', col0 + sx * i')
                  ∧ i ≤ i' ≤ dx ∧ j ≤ j' ≤ dy
                  ∧ (if dy <=? dx then i ≤ i' else j ≤ j')) cells
      ∧ Forall (λ c, (if dy <=? dx then i else j)
                     ≤ (if dy <=? dx then sx * (c.2 - col0)
                        else sy * (c.1 - row0))) cells.
Proof.
  intros Hdx Hdy Hsx Hsy.
  induction n as [|n IH]; intros i j err row col Hinv Hi Hj Herr Hrow Hcol.
  - destruct (line_inv_end dx dy i j Hdx Hdy Hinv) as [-> ->].
    exists [(row, col)]. subst row col. split; [|split; [|split]].
    + intros S visit s. rewrite bresenham_loop_S. by rewrite !Z.eqb_refl.
    + apply NoDup_singleton.
    + apply Forall_singleton. exists dx, dy. split; [done|].
      repeat split; try lia. destruct (dy <=? dx); lia.
    + apply Forall_singleton. simpl.
      destruct (dy <=? dx); [destruct Hsx|destruct Hsy]; subst; lia.
  - destruct (line_inv_box dx dy _ i j Hdx Hdy Hi Hj Hinv) as [Hidx Hjdy].
    destruct (line_inv_step dx dy sx sy row0 col0 n i j err row col)
      as (i' & j' & Hi' & Hj' & Hadv & Hinv' & Hcont); try done.
    assert (i ≤ i' ∧ j ≤ j') as [Hii Hjj].
    { destruct (- dy <? 2 * err), (2 * err <? dx); lia. }
    destruct (IH i' j'
                (if 2 * err <? dx
                 then (if - dy <? 2 * err then err - dy else err) + dx
                 else (if - dy <? 2 * err then err - dy else err))
                (if 2 * err <? dx then row + sy else row)
                (if - dy <? 2 * err then col + sx else col))
      as (cells & Hrun & Hnd & Hbox & Hmaj); [done|lia|lia| | | |].
    { destruct (- dy <? 2 * err), (2 * err <? dx); subst; lia. }
    { destruct (2 * err <? dx); subst; lia. }
    { destruct (- dy <? 2 * err); subst; lia. }
    exists ((row, col) :: cells). split; [|split; [|split]].
    + intros S visit s. rewrite bresenham_loop_S, Hcont. apply Hrun.
    + apply NoDup_cons. split; [|done]. intros Hin.
      rewrite Forall_forall in Hmaj. specialize (Hmaj _ Hin). simpl in Hmaj.
      destruct (dy <=? dx); [destruct Hsx|destruct Hsy]; subst; lia.
    + apply Forall_cons. split.
      * exists i, j. split; [by subst|].
        repeat split; try lia. destruct (dy <=? dx); lia.
      * eapply Forall_impl; [exact Hbox|].
        intros c (i2 & j2 & -> & ? & ? & ?). exists i2, j2.
        repeat split; try lia. destruct (dy <=? dx); lia.
    + apply Forall_cons. split.
      * simpl. destruct (dy <=? dx); [destruct Hsx|destruct Hsy];
          subst; lia.
      * eapply Forall_impl; [exact Hmaj|].
        intros c Hc. simpl in Hc. destruct (dy <=? dx); lia.
Qed.

(** The run of [drawLine] between two cells. *)
Lemma line_cells_rectangle (row0 col0 row1 col1 : Z) :
  ∃ cells,
    line_cells (line_fuel row0 col0 row1 col1) row0 col0 row1 col1
    = Some cells
    ∧ (∀ st, drawLine row0 col0 row1 col1 st
             = visit_all drawPixel cells st)
    ∧ NoDup cells
    ∧ Forall (λ c, Z.min row0 row1 ≤ c.1 ≤ Z.max row0 row1
                   ∧ Z.min col0 col1 ≤ c.2 ≤ Z.max col0 col1) cells
    ∧ (∀ w h, in_bounds w h row0 col0 = true →
              in_bounds w h row1 col1 = true →
              Forall (λ c, in_bounds w h c.1 c.2 = true) cells).
Proof.
  set (dx := Z.abs (col1 - col0)). set (dy := Z.abs (row1 - row0)).
  set (sx := if col0 <? col1 then 1 else -1).
  set (sy := if row0 <? row1 then 1 else -1).
  assert (col1 = col0 + sx * dx) as Hc.
  { unfold sx, dx. destruct (Z.ltb_spec col0 col1); lia. }
  assert (row1 = row0 + sy * dy) as Hr.
  { unfold sy, dy. destruct (Z.ltb_spec row0 row1); lia. }
  assert (sx = 1 ∨ sx = -1) as Hsx
    by (unfold sx; destruct (col0 <? col1); auto).
  assert (sy = 1 ∨ sy = -1) as Hsy
    by (unfold sy; destruct (row0 <? row1); auto).
  destruct (bresenham_loop_path dx dy sx sy row0 col0) with
    (n := Z.to_nat (Z.max dx dy)) (i := 0) (j := 0)
    (err := dx - dy) (row := row0) (col := col0)
    as (cells & Hrun & Hnd & Hbox & _); try lia; try done.
  { unfold line_inv.
    destruct (decide (dx = 0 ∧ dy = 0)) as [[E1 E2]|Hn].
    - left. rewrite E1, E2. done.
    - right. destruct (decide (dy ≤ dx)); [left|right]; lia. }
  assert (Forall (λ c, Z.min row0 row1 ≤ c.1 ≤ Z.max row0 row1
                       ∧ Z.min col0 col1 ≤ c.2 ≤ Z.max col0 col1) cells)
    as Hrect.
  { eapply Forall_impl; [exact Hbox|].
    intros c (i' & j' & -> & Hi' & Hj' & _). simpl.
    destruct Hsx, Hsy; subst sx sy dx dy; lia. }
  exists cells. rewrite <- Hc, <- Hr in Hrun.
  split; [|split; [|split; [done|split; [done|]]]].
  - unfold line_cells, line_fuel, bresenham. fold dx dy sx sy.
    rewrite Hrun. by rewrite visit_all_snoc.
  - intros st. unfold drawLine, line_fuel, bresenham. fold dx dy sx sy.
    by rewrite Hrun.
  - intros w h H0 H1. apply in_bounds_spec in H0, H1.
    eapply Forall_impl; [exact Hrect|].
    intros c Hc'. simpl in Hc'. apply in_bounds_spec. lia.
Qed.

(** X6. The cells [drawLine] visits between two cells are pairwise
    distinct and lie in the rectangle spanned by the two cells; so a
    line between two cells of the grid stays inside the grid, and
    [drawPixel] is never called on a cell outside it. *)
Theorem line_in_rectangle (row0 col0 row1 col1 : Z) :
  ∃ cells,
    line_cells (line_fuel row0 col0 row1 col1) row0 col0 row1 col1
    = Some cells
    ∧ (∀ st, drawLine row0 col0 row1 col1 st
             = visit_all drawPixel cells st)
    ∧ NoDup cells
    ∧ Forall (λ c, Z.min row0 row1 ≤ c.1 ≤ Z.max row0 row1
                   ∧ Z.min col0 col1 ≤ c.2 ≤ Z.max col0 col1) cells
    ∧ (∀ w h, in_bounds w h row0 col0 = true →
              in_bounds w h row1 col1 = true →
              Forall (λ c, in_bounds w h c.1 c.2 = true) cells).
Proof. apply line_cells_rectangle. Qed.

(** The clamp of [getCanvasCoordinates]. *)
Lemma clampCell_in_bounds w h row col :
  1 ≤ w → 1 ≤ h →
  in_bounds w h (clampCell w h row col).1 (clampCell w h row col).2 = true.
Proof. intros. apply in_bounds_spec. unfold clampCell. simpl. lia. Qed.

(** X7. On a grid with at least one cell, the clamp of
    [getCanvasCoordinates] always yields a cell of the grid and
    leaves cells of the grid as they are; hence [drawLine] between
    two pointer positions, wherever the pointer is, visits only cells
    of the grid. *)
Theorem pointer_line_in_bounds (w h : Z) (a b : Z * Z) :
  1 ≤ w → 1 ≤ h →
  let p := clampCell w h a.1 a.2 in
  let q := clampCell w h b.1 b.2 in
  in_bounds w h p.1 p.2 = true
  ∧ (in_bounds w h a.1 a.2 = true → p = a)
  ∧ clampCell w h p.1 p.2 = p
  ∧ ∃ cells,
      line_cells (line_fuel p.1 p.2 q.1 q.2) p.1 p.2 q.1 q.2 = Some cells
      ∧ Forall (λ c, in_bounds w h c.1 c.2 = true) cells.
Proof.
  intros Hw Hh p q.
  split; [by apply clampCell_in_bounds|]. split; [|split].
  - intros Ha. apply in_bounds_spec in Ha. destruct a as [r c].
    unfold p, clampCell. simpl in *. f_equal; lia.
  - unfold p, clampCell. simpl. f_equal; lia.
  - destruct (line_cells_rectangle p.1 p.2 q.1 q.2)
      as (cells & H1 & _ & _ & _ & H2).
    exists cells. split; [done|].
    apply H2; by apply clampCell_in_bounds.
Qed.

Lemma pointer_line_in_bounds_witness :
  clampCell 32 32 (-3) 42 = (0, 31)
  ∧ in_bounds 32 32 (clampCell 32 32 (-3) 42).1
      (clampCell 32 32 (-3) 42).2 = true.
Proof.
  split; [reflexivity|].
  apply (pointer_line_in_bounds 32 32 (-3, 42) (5, 5)); lia.
Defined.
End line_path.

Section stroke.
Implicit Types (st : State) (row col : Z) (cells : list (Z * Z)).

(** The colour a brush tool writes. *)
Lemma drawPixel_brush_context row col st :
  is_brush_tool (currentTool st) = true →
  currentTool (drawPixel row col st) = currentTool st
  ∧ currentColor (drawPixel row col st) = currentColor st
  ∧ brushSize (drawPixel row col st) = brushSize st
  ∧ gridWidth (drawPixel row col st) = gridWidth st
  ∧ gridHeight (drawPixel row col st) = gridHeight st.
Proof.
  intros Ht. unfold drawPixel.
  destruct (in_bounds _ _ row col); simpl; [|done].
  destruct (currentTool st) eqn:E; try done; simpl; by rewrite E.
Qed.

Lemma drawPixel_brush_wf row col st :
  is_brush_tool (currentTool st) = true →
  wf_grid (gridWidth st) (gridHeight st) (grid st) →
  wf_grid (gridWidth st) (gridHeight st) (grid (drawPixel row col st)).
Proof.
  intros Ht Hwf.
  destruct (in_bounds (gridWidth st) (gridHeight st) row col) eqn:Hb.
  - rewrite drawPixel_brush by done. by apply paint_wf.
  - unfold drawPixel. by rewrite Hb.
Qed.

(** A stamp keeps the cells that already hold the tool's colour, and
    gives it to the cell it is centred on. *)
Lemma drawPixel_brush_keeps row col st :
  is_brush_tool (currentTool st) = true →
  wf_grid (gridWidth st) (gridHeight st) (grid st) →
  let color := previewColor st in
  (∀ p q, get_cell (grid st) p q = Some color →
          get_cell (grid (drawPixel row col st)) p q = Some color)
  ∧ (1 ≤ brushSize st →
     in_bounds (gridWidth st) (gridHeight st) row col = true →
     get_cell (grid (drawPixel row col st)) row col = Some color).
Proof.
  intros Ht Hwf color.
  assert (color = if bool_decide (currentTool st = pencil)
                  then currentColor st else WHITE) as Hcolor.
  { unfold color, previewColor. by destruct (currentTool st). }
  destruct (in_bounds (gridWidth st) (gridHeight st) row col) eqn:Hb.
  - rewrite drawPixel_brush by done. rewrite <- Hcolor. split.
    + intros p q Hpq.
      rewrite (get_cell_paint (gridWidth st) (gridHeight st))
        by auto using stamp_cells_in_bounds.
      by destruct (decide _).
    + intros Hbrush _.
      rewrite (get_cell_paint (gridWidth st) (gridHeight st))
        by auto using stamp_cells_in_bounds.
      rewrite decide_True; [done|]. apply elem_of_stamp_cells.
      split; [done|]. unfold in_brush.
      assert (0 ≤ brushSize st / 2 < brushSize st); [|lia].
      split; [apply Z.div_pos; lia|apply Z.div_lt_upper_bound; lia].
  - unfold drawPixel. rewrite Hb. simpl. split; [done|]. intros _ ?. done.
Qed.

Lemma visit_all_brush_paints cells : ∀ st,
  is_brush_tool (currentTool st) = true →
  wf_grid (gridWidth st) (gridHeight st) (grid st) →
  1 ≤ brushSize st →
  Forall (λ c, in_bounds (gridWidth st) (gridHeight st) c.1 c.2 = true)
    cells →
  let st' := visit_all drawPixel cells st in
  (∀ p q, get_cell (grid st) p q = Some (previewColor st) →
          get_cell (grid st') p q = Some (previewColor st))
  ∧ Forall (λ c, get_cell (grid st') c.1 c.2 = Some (previewColor st))
      cells.
Proof.
  induction cells as [|[a b] cells IH]; intros st Ht Hwf Hbrush Hin.
  - simpl. split; [done|]. constructor.
  - apply Forall_cons in Hin as [Hab Hin]. simpl in Hab.
    destruct (drawPixel_brush_context a b st Ht)
      as (Et & Ec & Eb & Ew & Eh).
    destruct (drawPixel_brush_keeps a b st Ht Hwf) as (Hkeep & Hset).
    assert (previewColor (drawPixel a b st) = previewColor st) as Ep.
    { unfold previewColor. by rewrite Et, Ec. }
    destruct (IH (drawPixel a b st)) as (IHkeep & IHset).
    { by rewrite Et. }
    { rewrite Ew, Eh. by apply drawPixel_brush_wf. }
    { by rewrite Eb. }
    { by rewrite Ew, Eh. }
    rewrite Ep in IHkeep, IHset.
    change (visit_all drawPixel ((a, b) :: cells) st)
      with (visit_all drawPixel cells (drawPixel a b st)).
    split; [auto|]. apply Forall_cons. split; [|done].
    simpl. apply IHkeep. by apply Hset.
Qed.

(** X8. A drag does not skip cells: when the pointer moves with the
    button held from the last drawn cell to another cell of the
    grid, with the pencil or the eraser and a brush of size at least
    1, every cell of the line between the two cells holds the tool's
    colour afterwards, cells that already held it still do, and the
    new cell becomes the last drawn one. *)
Theorem drag_paints_line st (row0 col0 row1 col1 : Z) :
  is_brush_tool (currentTool st) = true →
  isDrawing st = true →
  lastDrawnPos st = Some (row0, col0) →
  (row0, col0) ≠ (row1, col1) →
  in_bounds (gridWidth st) (gridHeight st) row0 col0 = true →
  in_bounds (gridWidth st) (gridHeight st) row1 col1 = true →
  wf_grid (gridWidth st) (gridHeight st) (grid st) →
  1 ≤ brushSize st →
  let st' := onCanvasMouseMove 1 (Some (row1, col1)) st in
  lastDrawnPos st' = Some (row1, col1)
  ∧ (∀ p q, get_cell (grid st) p q = Some (previewColor st) →
            get_cell (grid st') p q = Some (previewColor st))
  ∧ ∃ cells,
      line_cells (line_fuel row0 col0 row1 col1) row0 col0 row1 col1
      = Some cells
      ∧ head cells = Some (row0, col0) ∧ last cells = Some (row1, col1)
      ∧ chain one_step cells
      ∧ Forall (λ c, get_cell (grid st') c.1 c.2 = Some (previewColor st))
          cells.
Proof.
  intros Ht Hd Hlast Hne Hb0 Hb1 Hwf Hbrush st'.
  destruct (line_cells_rectangle row0 col0 row1 col1)
    as (cells & Hcells & Hline & _ & _ & Hin).
  destruct (bresenham_run row0 col0 row1 col1)
    as (cells' & _ & Hhd & Hlst & Hchain & Hrun).
  assert (cells' = cells) as ->.
  { unfold line_cells in Hcells. rewrite Hrun, visit_all_snoc in Hcells.
    by injection Hcells. }
  assert (st' = set_lastDrawnPos (Some (row1, col1))
                  (visit_all drawPixel cells st)) as ->.
  { assert (negb (row0 =? row1) || negb (col0 =? col1) = true) as Hmoved.
    { destruct (Z.eqb_spec row0 row1), (Z.eqb_spec col0 col1); try done.
      congruence. }
    unfold st', onCanvasMouseMove. rewrite Z.eqb_refl, Hd.
    cbn [negb andb]. rewrite Hd, Ht. cbn [andb].
    by rewrite Hlast, Hmoved, Hline. }
  destruct (visit_all_brush_paints cells st Ht Hwf Hbrush (Hin _ _ Hb0 Hb1))
    as (Hkeep & Hset).
  simpl. split; [done|]. split; [done|].
  exists cells. by repeat split.
Qed.

Lemma drag_paints_line_witness :
  let st := startDrawing 3 3 initial_state in
  get_cell (grid (onCanvasMouseMove 1 (Some (5, 7)) st)) 3 3 = Some BLACK.
Proof.
  intros st.
  assert ((3, 3) ≠ (5, 7)) as Hne by discriminate.
  assert (wf_grid (gridWidth st) (gridHeight st) (grid st)) as Hwf.
  { apply (drawPixel_brush_wf 3 3
             (set_lastDrawnPos (Some (3, 3))
                (set_hoveredCell None (set_isDrawing true initial_state))));
      [reflexivity|apply create_wf]. }
  assert (1 ≤ brushSize st) as Hbrush by (vm_compute; discriminate).
  assert (is_brush_tool (currentTool st) = true) as Ht
    by (vm_compute; reflexivity).
  assert (isDrawing st = true) as Hd by (vm_compute; reflexivity).
  assert (lastDrawnPos st = Some (3, 3)) as Hl by (vm_compute; reflexivity).
  assert (in_bounds (gridWidth st) (gridHeight st) 3 3 = true) as Hb0
    by (vm_compute; reflexivity).
  assert (in_bounds (gridWidth st) (gridHeight st) 5 7 = true) as Hb1
    by (vm_compute; reflexivity).
  destruct (drag_paints_line st 3 3 5 7 Ht Hd Hl Hne Hb0 Hb1 Hwf Hbrush)
    as (_ & Hkeep & _).
  apply Hkeep. vm_compute. reflexivity.
Defined.
End stroke.

(** ** Undo after an edit, clearing and resizing *)

Section edits.
Implicit Types (st : State) (g : list (list string)) (app : App).

Lemma record_undo st g :
  cursor_ok st →
  Z.of_nat (length (history st)) ≤ MAX_HISTORY →
  history st !! Z.to_nat (historyIndex st) = Some (grid st) →
  grid (record g st) = g
  ∧ grid (undo (record g st)) = grid st
  ∧ redo (undo (record g st)) = record g st.
Proof.
  intros Hcur Hcap Hs. pose proof Hcur as [Hlo Hhi].
  unfold MAX_HISTORY in *.
  set (h1 := take (Z.to_nat (historyIndex st + 1)) (history st)).
  assert (length h1 = Z.to_nat (historyIndex st + 1)) as Hl1.
  { unfold h1. rewrite length_take. lia. }
  destruct (saveState_cursor (set_grid g st) Hcur Hcap) as [Hh Hi].
  fold (record g st) in Hh, Hi. simpl in Hh. fold h1 in Hh.
  assert (grid (record g st) = g) as Hg
    by (unfold record; by rewrite saveState_grid).
  assert (length (history (record g st))
          = (length h1 + 1 - (length h1 - 49))%nat) as Hlen.
  { rewrite Hh, length_drop, length_app. simpl. lia. }
  assert (history (record g st)
            !! Z.to_nat (historyIndex (record g st) - 1)
          = Some (grid st)) as Hprev.
  { rewrite Hh, lookup_drop, Hi, Hlen.
    replace (length h1 - 49 +
             Z.to_nat (Z.of_nat (length h1 + 1 - (length h1 - 49)) - 1 - 1))%nat
      with (Z.to_nat (historyIndex st)) by lia.
    rewrite lookup_app_l by lia. unfold h1.
    rewrite lookup_take_lt by lia. done. }
  assert (history (record g st) !! Z.to_nat (historyIndex (record g st))
          = Some (grid (record g st))) as Hsync.
  { rewrite Hg, Hi.
    pose proof (saveState_last (set_grid g st)) as Hl.
    rewrite last_lookup in Hl. fold (record g st) in Hl. simpl in Hl.
    rewrite <- Hl. f_equal. lia. }
  split; [done|]. split.
  - rewrite (undo_step _ (grid st)); [done| |done]. lia.
  - apply redo_undo_cancel; [split; lia|done|lia].
Qed.

(** X9. From a state whose grid is the entry under the cursor, one
    [undo] after any recorded edit brings the grid from before the
    edit back, also when the stack was full and the oldest entry had
    to go, and one [redo] after that brings the edit back. *)
Theorem undo_record st g :
  cursor_ok st →
  Z.of_nat (length (history st)) ≤ MAX_HISTORY →
  history st !! Z.to_nat (historyIndex st) = Some (grid st) →
  grid (record g st) = g
  ∧ grid (undo (record g st)) = grid st
  ∧ redo (undo (record g st)) = record g st.
Proof. apply record_undo. Qed.

Lemma undo_record_witness :
  let st := initial_state in
  grid (undo (record (create 32 32 BLACK) st)) = create 32 32 WHITE.
Proof.
  intros st.
  assert (cursor_ok st) as Hc by (split; simpl; lia).
  assert (Z.of_nat (length (history st)) ≤ MAX_HISTORY) as Hcap
    by (unfold MAX_HISTORY; simpl; lia).
  destruct (undo_record st (create 32 32 BLACK) Hc Hcap eq_refl)
    as (_ & Hu & _).
  exact Hu.
Defined.

Lemma elem_of_all_cells w h row col :
  (row, col) ∈ all_cells w h ↔ in_bounds w h row col = true.
Proof.
  unfold all_cells. rewrite in_bounds_spec, list_elem_of_bind. split.
  - intros (r & Hin & Hr). apply list_elem_of_bind in Hin as (c & Hin & Hc).
    apply list_elem_of_singleton in Hin. apply elem_of_seqZ in Hr, Hc.
    simplify_eq. lia.
  - intros [Hr Hc]. exists row. split; [|apply elem_of_seqZ; lia].
    apply list_elem_of_bind. exists col.
    split; [by apply list_elem_of_singleton|apply elem_of_seqZ; lia].
Qed.

(** The loops of the confirmed [clearGrid] whiten every cell. *)
Lemma clearGrid_grid st :
  wf_grid (gridWidth st) (gridHeight st) (grid st) →
  grid (clearGrid st) = create (gridWidth st) (gridHeight st) WHITE.
Proof.
  intros Hwf. unfold clearGrid. rewrite saveState_grid. simpl.
  assert (foldl (λ g row, foldl (λ g col, set_cell g row col WHITE)
                   g (seqZ 0 (gridWidth st)))
            (grid st) (seqZ 0 (gridHeight st))
          = paint WHITE (all_cells (gridWidth st) (gridHeight st)) (grid st))
    as ->.
  { unfold paint, all_cells. rewrite visit_all_bind.
    apply foldl_ext_all. intros g row. rewrite visit_all_bind.
    by apply foldl_ext_all. }
  assert (Forall (λ c, in_bounds (gridWidth st) (gridHeight st) c.1 c.2
                       = true)
            (all_cells (gridWidth st) (gridHeight st))) as Hall.
  { apply Forall_forall. intros [row col]. apply elem_of_all_cells. }
  apply (grid_ext (gridWidth st) (gridHeight st));
    [by apply paint_wf|apply create_wf|].
  intros row col Hb.
  rewrite (get_cell_paint (gridWidth st) (gridHeight st)) by done.
  rewrite decide_True by by apply elem_of_all_cells.
  by rewrite get_cell_create.
Qed.

Section with_parseInt.
Variable parseInt : string → option Z.

(** X10. Confirming the "Clear" dialog whitens every cell of the
    grid, keeps its size, the colours and the tool, records the
    white grid as one snapshot, and closes the dialog; one [undo]
    then brings the grid from before back.  Cancelling the dialog
    closes it and leaves the editor untouched. *)
Theorem clear_dialog app :
  state_inv (editor app) →
  let st := editor app in
  let yes := confirmDialog parseInt (clearGrid_button app) in
  let no := cancelDialog parseInt (clearGrid_button app) in
  let blank := create (gridWidth st) (gridHeight st) WHITE in
  (dialogVisible yes = false ∧ dialogCallback yes = None
   ∧ grid (editor yes) = blank
   ∧ gridWidth (editor yes) = gridWidth st
   ∧ gridHeight (editor yes) = gridHeight st
   ∧ colorHistory (editor yes) = colorHistory st
   ∧ currentColor (editor yes) = currentColor st
   ∧ currentTool (editor yes) = currentTool st
   ∧ last (history (editor yes)) = Some blank
   ∧ (history st !! Z.to_nat (historyIndex st) = Some (grid st) →
      grid (undo (editor yes)) = grid st))
  ∧ (dialogVisible no = false ∧ dialogCallback no = None
     ∧ editor no = st).
Proof.
  intros Hinv st yes no blank.
  assert (editor yes = clearGrid st) as Ey by done.
  split; [|done].
  split; [done|]. split; [done|]. rewrite Ey.
  pose proof (clearGrid_grid st (inv_grid _ Hinv)) as Hg.
  split; [done|].
  unfold clearGrid in *.
  set (st1 := set_grid _ st) in *.
  destruct (saveState_fields st1) as (Ew & Eh & Eg & Ec & Et & Ecol & _).
  rewrite Ew, Eh, Ec, Et, Ecol.
  repeat (split; [done|]).
  split; [by rewrite saveState_last, <- Eg, Hg|].
  intros Hs.
  destruct (record_undo st (grid st1)) as (_ & Hu & _);
    [apply (inv_cursor _ Hinv)|apply (inv_capacity _ Hinv)|done|].
  exact Hu.
Qed.

(** X11. Confirming the "Resize" dialog with input [s] always
    closes the dialog, also when the input is rejected (the alert
    the callback opens is closed by the same [confirmDialog]).
    The input is accepted exactly when it is not empty and
    [parseInt] gives an integer between 8 and 64; the editor then
    holds a blank white grid of that side, a history of that one
    entry with the cursor on it, and the tool, colour and colour
    history it had.  Every other input, and cancelling, leave the
    editor untouched. *)
Theorem resize_dialog app (s : string) :
  let st := editor app in
  let opened := set_dialogInput s (resizeGrid_button app) in
  let yes := confirmDialog parseInt opened in
  let no := cancelDialog parseInt opened in
  dialogVisible yes = false ∧ dialogCallback yes = None
  ∧ editor yes
    = resizeGrid (if bool_decide (s = "") then None else parseInt s) st
  ∧ (∀ n, s ≠ "" → parseInt s = Some n → 8 ≤ n ≤ 64 →
       gridWidth (editor yes) = n ∧ gridHeight (editor yes) = n
       ∧ grid (editor yes) = create n n WHITE
       ∧ history (editor yes) = [create n n WHITE]
       ∧ historyIndex (editor yes) = 0
       ∧ undo (editor yes) = editor yes
       ∧ colorHistory (editor yes) = colorHistory st
       ∧ currentColor (editor yes) = currentColor st
       ∧ currentTool (editor yes) = currentTool st)
  ∧ ((s = "" ∨ parseInt s = None
      ∨ ∃ n, parseInt s = Some n ∧ (n < 8 ∨ 64 < n)) →
     editor yes = st)
  ∧ (dialogVisible no = false ∧ dialogCallback no = None
     ∧ editor no = st).
Proof.
  intros st opened yes no.
  assert (editor yes
          = resizeGrid (if bool_decide (s = "") then None
                        else parseInt s) st) as Ey.
  { unfold yes, confirmDialog, opened, resizeGrid_button. simpl.
    destruct (bool_decide_reflect (s = "")) as [->|Hs]; simpl; [done|].
    destruct (parseInt s) as [n|]; simpl; [|done].
    by destruct ((n <? 8) || (64 <? n)). }
  split; [done|]. split; [done|]. split; [done|]. split; [|split].
  - intros n Hs Hp Hn. rewrite Ey.
    rewrite bool_decide_false by done. rewrite Hp. simpl.
    destruct (Z.ltb_spec n 8), (Z.ltb_spec 64 n); try lia. simpl.
    repeat split; done.
  - intros Hrej. rewrite Ey.
    destruct (bool_decide_reflect (s = "")) as [->|Hs]; [done|].
    destruct Hrej as [?|[->|(n & -> & Hn)]]; [done|done|].
    simpl. destruct (Z.ltb_spec n 8), (Z.ltb_spec 64 n); try done. lia.
  - done.
Qed.
End with_parseInt.

Lemma clear_dialog_witness :
  let app := mkApp (run (drag (3, 3) [(5, 7)]) initial_state)
               false dlg_alert "" "" "" None in
  grid (undo (editor (confirmDialog (λ _, None) (clearGrid_button app))))
  = grid (editor app).
Proof.
  intros app.
  assert (state_inv (editor app)) as Hinv
    by apply reachable_inv, reachable_run, reachable_init.
  destruct (clear_dialog (λ _, None) app Hinv)
    as ((_ & _ & _ & _ & _ & _ & _ & _ & _ & Hu) & _).
  apply Hu. vm_compute. reflexivity.
Defined.
End edits.

(** ** Preview, export, keyboard *)

Section surfaces.
Implicit Types (st : State) (row col : Z).

(** X12. With no gesture in progress and the pencil or the eraser
    selected, the hover preview shows exactly what a click would
    do: [drawPixel] at the hovered cell writes the preview colour
    into the previewed cells and changes no other cell.  With the
    fill tool or the eyedropper, or during a gesture, nothing is
    previewed. *)
Theorem hover_preview_matches_stamp st row col :
  hoveredCell st = Some (row, col) →
  in_bounds (gridWidth st) (gridHeight st) row col = true →
  wf_grid (gridWidth st) (gridHeight st) (grid st) →
  (isDrawing st = true → renderHoverPreview st = [])
  ∧ (is_brush_tool (currentTool st) = false → renderHoverPreview st = [])
  ∧ (isDrawing st = false → is_brush_tool (currentTool st) = true →
     grid (drawPixel row col st)
     = paint (previewColor st) (renderHoverPreview st) (grid st)
     ∧ ∀ p q,
         get_cell (grid (drawPixel row col st)) p q
         = if decide ((p, q) ∈ renderHoverPreview st)
           then Some (previewColor st) else get_cell (grid st) p q).
Proof.
  intros Hhov Hb Hwf. unfold renderHoverPreview. rewrite Hhov.
  split; [by intros ->|]. split.
  - intros Ht. destruct (isDrawing st); [done|].
    by destruct (currentTool st).
  - intros -> Ht.
    assert ((if bool_decide (currentTool st = eraser)
             then hover_cells st row col
             else if bool_decide (currentTool st = fill)
                     || bool_decide (currentTool st = eyedropper)
                  then [] else hover_cells st row col)
            = stamp_cells (gridWidth st) (gridHeight st) (brushSize st)
                row col) as ->.
    { by destruct (currentTool st). }
    assert (previewColor st
            = if bool_decide (currentTool st = pencil)
              then currentColor st else WHITE) as ->.
    { unfold previewColor. by destruct (currentTool st). }
    rewrite drawPixel_brush by done. split; [done|].
    intros p q. apply (get_cell_paint (gridWidth st) (gridHeight st));
      auto using stamp_cells_in_bounds.
Qed.

Lemma hover_preview_matches_stamp_witness :
  let st := set_brushSize 3 (set_hoveredCell (Some (0, 0)) initial_state) in
  renderHoverPreview st = [(0, 0); (0, 1); (1, 0); (1, 1)]
  ∧ grid (drawPixel 0 0 st)
    = paint BLACK [(0, 0); (0, 1); (1, 0); (1, 1)] (grid st).
Proof.
  intros st. split; [reflexivity|].
  destruct (hover_preview_matches_stamp st 0 0 eq_refl eq_refl
              (create_wf 32 32 WHITE)) as (_ & _ & Hclick).
  apply Hclick; reflexivity.
Defined.

(** Copying cells of [g] into an image of the same shape. *)
Lemma get_cell_copy w h (g : list (list string)) cells : ∀ img p q,
  wf_grid w h img →
  Forall (λ c, in_bounds w h c.1 c.2 = true) cells →
  (∀ c, c ∈ cells → is_Some (get_cell g c.1 c.2)) →
  get_cell
    (visit_all (λ row col img,
                  match get_cell g row col with
                  | Some color => set_cell img row col color
                  | None => img
                  end) cells img) p q
  = if decide ((p, q) ∈ cells) then get_cell g p q else get_cell img p q.
Proof.
  induction cells as [|[cr cc] cells IH]; intros img p q Hwf Hall Hsome.
  - rewrite decide_False; [done|]. apply not_elem_of_nil.
  - apply Forall_cons in Hall as [Hc Hall]. simpl in Hc.
    destruct (Hsome (cr, cc)) as [v Hv]; [by left|]. simpl in Hv.
    unfold visit_all. simpl. rewrite Hv.
    fold (visit_all (λ row col img,
                       match get_cell g row col with
                       | Some color => set_cell img row col color
                       | None => img
                       end) cells (set_cell img cr cc v)).
    rewrite IH; [|by apply set_cell_wf|done|].
    2:{ intros c Hc'. apply Hsome. by right. }
    destruct (decide ((p, q) ∈ cells)) as [Hin|Hin].
    + rewrite decide_True; [done|]. by right.
    + destruct (decide ((p, q) = (cr, cc))) as [E|E].
      * rewrite decide_True by (rewrite E; left). simplify_eq.
        destruct (wf_get_cell w h img cr cc Hwf Hc) as [v0 Hv0].
        rewrite Hv. by eapply get_set_cell_eq.
      * rewrite decide_False.
        -- by apply get_set_cell_ne.
        -- intros [?|?]%elem_of_cons; done.
Qed.

(** X13. The exported image is the grid: it has [gridHeight] rows of
    [gridWidth] pixels, and pixel [col] of row [row] holds the colour
    of cell [(row, col)]; no pixel is left transparent. *)
Theorem exportAsPNG_is_grid st :
  wf_grid (gridWidth st) (gridHeight st) (grid st) →
  exportAsPNG st = grid st
  ∧ length (exportAsPNG st) = Z.to_nat (gridHeight st)
  ∧ (∀ row col,
       in_bounds (gridWidth st) (gridHeight st) row col = true →
       get_cell (exportAsPNG st) row col = get_cell (grid st) row col).
Proof.
  intros Hwf.
  assert (exportAsPNG st = grid st) as E.
  { unfold exportAsPNG.
    assert (∀ img,
              foldl (λ img row,
                       foldl (λ img col,
                                match get_cell (grid st) row col with
                                | Some color => set_cell img row col color
                                | None => img
                                end) img (seqZ 0 (gridWidth st)))
                img (seqZ 0 (gridHeight st))
              = visit_all (λ row col img,
                             match get_cell (grid st) row col with
                             | Some color => set_cell img row col color
                             | None => img
                             end)
                  (all_cells (gridWidth st) (gridHeight st)) img) as ->.
    { intros img. unfold all_cells. rewrite visit_all_bind.
      apply foldl_ext_all. intros g row. rewrite visit_all_bind.
      by apply foldl_ext_all. }
    assert (Forall (λ c, in_bounds (gridWidth st) (gridHeight st) c.1 c.2
                         = true)
              (all_cells (gridWidth st) (gridHeight st))) as Hall.
    { apply Forall_forall. intros [row col]. apply elem_of_all_cells. }
    assert (∀ img, wf_grid (gridWidth st) (gridHeight st) img →
              wf_grid (gridWidth st) (gridHeight st)
                (visit_all (λ row col img,
                              match get_cell (grid st) row col with
                              | Some color => set_cell img row col color
                              | None => img
                              end)
                   (all_cells (gridWidth st) (gridHeight st)) img))
      as Hwf'.
    { intros img Himg. apply visit_all_preserves; [|done].
      intros row col s Hs. destruct (get_cell (grid st) row col); [|done].
      by apply set_cell_wf. }
    apply (grid_ext (gridWidth st) (gridHeight st));
      [apply Hwf', create_wf|done|].
    intros row col Hb.
    rewrite (get_cell_copy (gridWidth st) (gridHeight st));
      [|apply create_wf|done|].
    - rewrite decide_True; [done|]. by apply elem_of_all_cells.
    - intros [r c] Hc. apply elem_of_all_cells in Hc.
      by eapply wf_get_cell. }
  rewrite E. split; [done|]. split; [apply Hwf|done].
Qed.

Lemma exportAsPNG_is_grid_witness :
  let st := run (drag (3, 3) [(5, 7)]) initial_state in
  exportAsPNG st = grid st.
Proof.
  intros st.
  assert (state_inv st) as Hinv
    by apply reachable_inv, reachable_run, reachable_init.
  apply (exportAsPNG_is_grid st (inv_grid _ Hinv)).
Defined.

(** *** Keyboard *)

Lemma onKeyDown_cases (event : KeyEvent) st :
  onKeyDown event st = st
  ∨ (0 < historyIndex st ∧ onKeyDown event st = undo st)
  ∨ (historyIndex st < Z.of_nat (length (history st)) - 1
     ∧ onKeyDown event st = redo st).
Proof.
  unfold onKeyDown. destruct (_ && _ && _).
  - destruct (Z.lt_ge_cases 0 (historyIndex st)); [by right; left|].
    left. apply undo_at_oldest. lia.
  - destruct (_ && _); [|by left].
    destruct (Z.lt_ge_cases (historyIndex st)
                (Z.of_nat (length (history st)) - 1)); [by right; right|].
    left. apply redo_at_newest. lia.
Qed.

Lemma onKeyDown_other_key (event : KeyEvent) st :
  key event ≠ "z" → key event ≠ "y" → onKeyDown event st = st.
Proof.
  intros Hz Hy. unfold onKeyDown.
  rewrite (bool_decide_eq_false_2 _ Hz), (bool_decide_eq_false_2 _ Hy).
  by rewrite !andb_false_r.
Qed.

Lemma onKeyDown_no_modifier (event : KeyEvent) st :
  ctrlKey event = false → metaKey event = false → onKeyDown event st = st.
Proof. intros Hc Hm. unfold onKeyDown. by rewrite Hc, Hm. Qed.

Lemma cursor_and_grid_only_trans st s1 s2 :
  s1 = set_historyIndex (historyIndex s1) (set_grid (grid s1) st) →
  s2 = set_historyIndex (historyIndex s2) (set_grid (grid s2) s1) →
  s2 = set_historyIndex (historyIndex s2) (set_grid (grid s2) st).
Proof.
  destruct st, s1, s2. unfold set_historyIndex, set_grid. simpl.
  intros E1 E2. congruence.
Qed.

(** One key event moves the cursor by at most one entry and puts
    the entry under it into the grid. *)
Lemma onKeyDown_step (event : KeyEvent) st :
  cursor_ok st →
  history st !! Z.to_nat (historyIndex st) = Some (grid st) →
  let st' := onKeyDown event st in
  st' = set_historyIndex (historyIndex st') (set_grid (grid st') st)
  ∧ cursor_ok st'
  ∧ history st' !! Z.to_nat (historyIndex st') = Some (grid st')
  ∧ Z.abs (historyIndex st' - historyIndex st) ≤ 1.
Proof.
  intros [Hlo Hhi] Hcur st'.
  destruct (onKeyDown_cases event st) as [E|[[Hpos E]|[Hlt E]]];
    unfold st'; rewrite E; clear E st'.
  - split; [by destruct st|]. split; [done|]. split; [done|lia].
  - destruct (lookup_lt_is_Some_2 (history st)
                (Z.to_nat (historyIndex st - 1))) as [g Hg]; [lia|].
    rewrite (undo_step st g) by done. unfold cursor_ok. simpl.
    split; [done|]. split; [lia|]. split; [done|lia].
  - destruct (lookup_lt_is_Some_2 (history st)
                (Z.to_nat (historyIndex st + 1))) as [g Hg]; [lia|].
    rewrite (redo_step st g) by done. unfold cursor_ok. simpl.
    split; [done|]. split; [lia|]. split; [done|lia].
Qed.

(** X14. Key events only move the history cursor.  From a state
    whose cursor is in range and whose grid is the entry under it,
    after any sequence of [keydown] events the state differs from
    the start in the cursor and the grid only: the entries of the
    history are the same, the cursor is in range and has moved by at
    most one entry per event, and the grid is the entry under it.
    The listener compares [event.key] with the lower-case ["z"] and
    ["y"]: events with another key, the upper-case ["Z"] and ["Y"]
    among them whatever the modifiers, and events without Ctrl or
    Cmd change nothing.  With Ctrl or Cmd, ["z"] without Shift is
    [undo], and ["y"], or ["z"] with [shiftKey] set, is [redo]. *)
Theorem keydown_moves_cursor_only (events : list KeyEvent) st :
  cursor_ok st →
  history st !! Z.to_nat (historyIndex st) = Some (grid st) →
  let st' := foldl (λ s event, onKeyDown event s) st events in
  st' = set_historyIndex (historyIndex st') (set_grid (grid st') st)
  ∧ history st' = history st
  ∧ cursor_ok st'
  ∧ history st' !! Z.to_nat (historyIndex st') = Some (grid st')
  ∧ Z.abs (historyIndex st' - historyIndex st) ≤ Z.of_nat (length events)
  ∧ (Forall (λ event, key event ≠ "z" ∧ key event ≠ "y") events →
     st' = st)
  ∧ (Forall (λ event, ctrlKey event = false ∧ metaKey event = false)
       events → st' = st)
  ∧ (∀ c m s, onKeyDown (mkKeyEvent c m s "Z") st = st
              ∧ onKeyDown (mkKeyEvent c m s "Y") st = st)
  ∧ (∀ c m, c || m = true →
       onKeyDown (mkKeyEvent c m false "z") st = undo st
       ∧ onKeyDown (mkKeyEvent c m true "z") st = redo st
       ∧ ∀ s, onKeyDown (mkKeyEvent c m s "y") st = redo st).
Proof.
  intros Hc Hcur st'.
  assert (st' = set_historyIndex (historyIndex st') (set_grid (grid st') st)
          ∧ cursor_ok st'
          ∧ history st' !! Z.to_nat (historyIndex st') = Some (grid st')
          ∧ Z.abs (historyIndex st' - historyIndex st)
            ≤ Z.of_nat (length events)) as (Heq & Hc' & Hcur' & Hdist).
  { unfold st'. clear st'. revert st Hc Hcur.
    induction events as [|event events IH]; intros st Hc Hcur.
    - simpl. split; [by destruct st|]. split; [done|]. split; [done|lia].
    - cbn [foldl].
      destruct (onKeyDown_step event st Hc Hcur) as (E1 & Hc1 & Hcur1 & D1).
      destruct (IH _ Hc1 Hcur1) as (E & Hc2 & Hcur2 & D).
      split; [|split; [done|split; [done|]]].
      + by eapply cursor_and_grid_only_trans.
      + rewrite length_cons. lia. }
  split; [done|]. split; [by rewrite Heq|].
  split; [done|]. split; [done|]. split; [done|].
  split; [|split; [|split]].
  - unfold st'. clear. revert st.
    induction events as [|event events IH]; intros st Hall; [done|].
    apply Forall_cons in Hall as [[Hz Hy] Hall]. cbn [foldl].
    rewrite onKeyDown_other_key by done. by apply IH.
  - unfold st'. clear. revert st.
    induction events as [|event events IH]; intros st Hall; [done|].
    apply Forall_cons in Hall as [[Hctrl Hmeta] Hall]. cbn [foldl].
    rewrite onKeyDown_no_modifier by done. by apply IH.
  - intros c m s. split; by apply onKeyDown_other_key.
  - intros c m Hcm. unfold onKeyDown. simpl. rewrite Hcm. simpl.
    split; [done|]. split; [done|]. by intros [].
Qed.

Lemma keydown_moves_cursor_only_witness :
  let st := record_all [create 32 32 BLACK] initial_state in
  let ctrl_z := mkKeyEvent true false false "z" in
  let ctrl_shift_Z := mkKeyEvent true false true "Z" in
  let st' := foldl (λ s event, onKeyDown event s) st
               [ctrl_z; ctrl_shift_Z] in
  history st' = history st
  ∧ history st' !! Z.to_nat (historyIndex st') = Some (grid st')
  ∧ onKeyDown ctrl_shift_Z st = st.
Proof.
  intros st ctrl_z ctrl_shift_Z st'.
  assert (cursor_ok st) as Hc by (split; vm_compute; done).
  assert (history st !! Z.to_nat (historyIndex st) = Some (grid st)) as Hcur
    by (vm_compute; reflexivity).
  destruct (keydown_moves_cursor_only [ctrl_z; ctrl_shift_Z] st Hc Hcur)
    as (_ & Hh & _ & Hs & _ & _ & _ & Hupper & _).
  split; [exact Hh|]. split; [exact Hs|]. apply Hupper.
Defined.
End surfaces.

(** ** Stamping twice *)

Section stamp_twice.
Implicit Types (st : State) (row col : Z) (g : list (list string)).

Lemma addToColorHistory_idem color st :
  colorHistory (addToColorHistory color (addToColorHistory color st))
  = colorHistory (addToColorHistory color st).
Proof.
  rewrite !addToColorHistory_colors.
  rewrite filter_cons_False by (intros ?; congruence).
  rewrite filter_ne_absent; [by rewrite take_take|].
  intros Hin. apply elem_of_take in Hin as (i & Hin & _).
  apply list_elem_of_lookup_2, list_elem_of_filter in Hin as [Hne _]. done.
Qed.

Lemma paint_idem w h color cells g :
  wf_grid w h g →
  Forall (λ c, in_bounds w h c.1 c.2 = true) cells →
  paint color cells (paint color cells g) = paint color cells g.
Proof.
  intros Hwf Hall.
  apply (grid_ext w h); [by do 2 apply paint_wf|by apply paint_wf|].
  intros p q Hb.
  rewrite (get_cell_paint w h) by auto using paint_wf.
  destruct (decide ((p, q) ∈ cells)) as [Hin|Hin]; [|done].
  rewrite (get_cell_paint w h) by done. by rewrite decide_True.
Qed.

(** X15. With the pencil or the eraser, stamping the cell that was
    just stamped changes nothing: neither the grid nor the colour
    history nor any other part of the state. *)
Theorem drawPixel_twice st row col :
  is_brush_tool (currentTool st) = true →
  wf_grid (gridWidth st) (gridHeight st) (grid st) →
  drawPixel row col (drawPixel row col st) = drawPixel row col st.
Proof.
  intros Ht Hwf.
  destruct (in_bounds (gridWidth st) (gridHeight st) row col) eqn:Hb;
    [|unfold drawPixel; by rewrite Hb; simpl; rewrite Hb].
  destruct (currentTool st) eqn:Etool; try done.
  - assert (drawPixel row col st
            = set_grid (paint (currentColor st)
                          (stamp_cells (gridWidth st) (gridHeight st)
                             (brushSize st) row col) (grid st))
                (addToColorHistory (currentColor st) st)) as E1.
    { unfold drawPixel. rewrite Hb, Etool. simpl. by rewrite stamp_paint. }
    rewrite E1. unfold drawPixel at 1. simpl. rewrite Hb, Etool. simpl.
    rewrite stamp_paint,
      (paint_idem (gridWidth st) (gridHeight st))
      by auto using stamp_cells_in_bounds.
    pose proof (addToColorHistory_idem (currentColor st) st) as Hidem.
    rewrite !addToColorHistory_colors in Hidem.
    unfold addToColorHistory. simpl. unfold js_slice0 in *. simpl in *.
    rewrite Hidem. by destruct st.
  - assert (drawPixel row col st
            = set_grid (paint WHITE
                          (stamp_cells (gridWidth st) (gridHeight st)
                             (brushSize st) row col) (grid st)) st) as E1.
    { unfold drawPixel. rewrite Hb, Etool. simpl. by rewrite stamp_paint. }
    rewrite E1. unfold drawPixel at 1. simpl. rewrite Hb, Etool. simpl.
    rewrite stamp_paint,
      (paint_idem (gridWidth st) (gridHeight st))
      by auto using stamp_cells_in_bounds.
    by destruct st.
Qed.

Lemma drawPixel_twice_witness :
  let st := set_brushSize 3 initial_state in
  drawPixel 4 4 (drawPixel 4 4 st) = drawPixel 4 4 st.
Proof.
  intros st.
  apply (drawPixel_twice st 4 4 eq_refl (create_wf 32 32 WHITE)).
Defined.
End stamp_twice.
